(** * Who-did-What relation extraction: a shallow embedding of
    [whodidwhat/svo_extraction.py] and the properties of its traversal.

    A parsed document is an arena of tokens addressed by their index.  The
    parser's structural attributes ([children], [lefts], [rights],
    [ancestors], [subtree]) are read off the head links; the coordination
    side-links ([conjuncts]) are part of the token data.  Recursive functions
    carry a bound on the depth of their recursion and return [None] when the
    bound is exceeded (Python's [RecursionError]). *)

From stdpp Require Import base option list list_monad gmap strings sorting.

Local Open Scope stdpp_scope.
Set Warnings "-clear-no-such-hyp".

(** ** Tokens and documents *)

Record Token := {
  t_text : string;            (* token.text *)
  t_lemma : string;           (* token.lemma_ *)
  t_pos : string;             (* token.pos_ *)
  t_tag : string;             (* token.tag_ *)
  t_dep : string;             (* token.dep_ *)
  t_head : nat;               (* token.head.i *)
  t_conjuncts : list nat;     (* [c.i for c in token.conjuncts] *)
  t_mood : list string        (* token.morph.get("Mood") *)
}.

Definition blank_token : Token :=
  {| t_text := ""; t_lemma := ""; t_pos := ""; t_tag := ""; t_dep := "";
     t_head := 0; t_conjuncts := []; t_mood := [] |}.

#[global] Instance Token_inhabited : Inhabited Token := populate blank_token.

Abbreviation Doc := (list Token).

(** A phrase: the main string and its prepositional attachments. *)
Definition Phrase : Type := string * list string.

(** One extraction: [[subjects, verb_phrase, objects]]. *)
Definition SVO : Type := list Phrase * list string * list Phrase.

(** ** Python helpers *)

(** [x in (s1, ..., sn)] on strings. *)
Definition str_in (x : string) (l : list string) : bool :=
  existsb (String.eqb x) l.

(** [x in 'acomp']: on two strings Python's [in] is the substring test. *)
Definition py_substr (x s : string) : bool :=
  match String.index 0 x s with Some _ => true | None => false end.

(** [sep.join(parts)]. *)
Definition join (sep : string) (parts : list string) : string :=
  String.concat sep parts.

(** [bool(l)] for a list. *)
Definition nonempty {A} (l : list A) : bool :=
  match l with [] => false | _ => true end.

(** [sorted(tokens, key=lambda x: x.i)]: a stable insertion sort on indices. *)
Fixpoint insert_by_i (x : nat) (l : list nat) : list nat :=
  match l with
  | [] => [x]
  | y :: l' => if Nat.ltb x y then x :: y :: l' else y :: insert_by_i x l'
  end.

Definition sorted_by_i (l : list nat) : list nat :=
  fold_left (fun acc x => insert_by_i x acc) l [].

(** [itertools.combinations(l, 2)]. *)
Fixpoint combinations2 {A} (l : list A) : list (A * A) :=
  match l with
  | [] => []
  | x :: l' => map (pair x) l' ++ combinations2 l'
  end.

(** ** Token navigation *)

Section Navigation.
Variable d : Doc.

Definition tok (i : nat) : Token := d !!! i.
Definition text (i : nat) : string := t_text (tok i).
Definition lemma_ (i : nat) : string := t_lemma (tok i).
Definition pos_ (i : nat) : string := t_pos (tok i).
Definition tag_ (i : nat) : string := t_tag (tok i).
Definition dep_ (i : nat) : string := t_dep (tok i).
Definition head (i : nat) : nat := t_head (tok i).
Definition conjuncts (i : nat) : list nat := t_conjuncts (tok i).
Definition mood (i : nat) : list string := t_mood (tok i).

Definition indices : list nat := seq 0 (length d).

(** [token.children]: the tokens whose head is [i], in document order. *)
Definition children (i : nat) : list nat :=
  List.filter (fun j => Nat.eqb (head j) i && negb (Nat.eqb j i)) indices.

Definition lefts (i : nat) : list nat :=
  List.filter (fun j => Nat.ltb j i) (children i).

Definition rights (i : nat) : list nat :=
  List.filter (fun j => Nat.ltb i j) (children i).

(** [token.ancestors]: the chain of heads up to the root; the parser stops
    after as many steps as the document has tokens. *)
Fixpoint ancestors_from (n : nat) (i : nat) : list nat :=
  match n with
  | 0 => []
  | S n' => if Nat.eqb (head i) i then [] else head i :: ancestors_from n' (head i)
  end.

Definition ancestors (i : nat) : list nat := ancestors_from (length d) i.

(** [token.subtree]: the token and its descendants, in document order. *)
Definition subtree (i : nat) : list nat :=
  List.filter (fun j => Nat.eqb j i || existsb (Nat.eqb i) (ancestors j)) indices.

(** [[c for c in i.children if c.dep_ == label]] and the set variant. *)
Definition children_dep (label : string) (i : nat) : list nat :=
  List.filter (fun c => String.eqb (dep_ c) label) (children i).

Definition children_dep_in (labels : list string) (i : nat) : list nat :=
  List.filter (fun c => str_in (dep_ c) labels) (children i).
End Navigation.

(** ** Collaborators outside the file

    The stop-lists of [whodidwhat.resources], WordNet's [synsets], the
    iteration order of Python's [set] and the built-in [str] of a nested
    list are supplied from outside. *)

Record Synset := { syn_name : string; syn_lemma_names : list string }.

Class Externals := {
  _VAGUE_AUX : list string;
  _VAGUE_ADVMODS : list string;
  wn_synsets : string -> list Synset;
  list_of_set : list string -> list string;
  list_of_set_NoDup : forall l, NoDup (list_of_set l);
  list_of_set_elem : forall l x, x ∈ list_of_set l <-> x ∈ l;
  py_str : SVO -> string
}.

(** ** Phrase Assembler ([get_compound_parts], lines 418-517) *)

Definition nominal : list string := ["NOUN"; "PROPN"; "PRON"].
Definition deep_modifier_deps : list string :=
  ["compound"; "nmod"; "advmod"; "amod"; "npadvmod"].

Section Assembler.
Variable d : Doc.

(** The word a token contributes, by mode. *)
Definition word (lemmatize : bool) (i : nat) : string :=
  if lemmatize then lemma_ d i else text d i.

(** The nested helper [get_conj_ADJ]: whatever its argument, it reads the
    conjuncts of the enclosing loop's [child]. *)
Definition get_conj_ADJ (child : nat) : list nat :=
  List.filter (fun c => String.eqb (pos_ d c) "ADJ" && String.eqb (dep_ d c) "conj")
    (conjuncts d child).

Definition is_modifier (token child : nat) : bool :=
  (str_in (dep_ d child) ["compound"; "amod"; "nmod"]
   || (str_in (dep_ d child) ["advmod"; "npadvmod"]
       && str_in (pos_ d token) ["VERB"; "AUX"]))
  && negb (str_in (pos_ d child) ["SCONJ"; "CCONJ"; "PART"]).

(** The three-level modifier loop, in traversal order. *)
Definition modifiers_of_grandchild (child grandchild : nat) : list nat :=
  (if str_in (dep_ d grandchild) deep_modifier_deps
   then grandchild :: get_conj_ADJ child else [])
  ++ flat_map (fun ggc =>
       if str_in (dep_ d ggc) deep_modifier_deps
       then ggc :: get_conj_ADJ child else [])
     (children d grandchild).

Definition modifiers_of_child (token child : nat) : list nat :=
  if is_modifier token child
  then child :: get_conj_ADJ child
       ++ flat_map (modifiers_of_grandchild child) (children d child)
  else [].

Definition collect_modifiers (token : nat) : list nat :=
  flat_map (modifiers_of_child token) (children d token).

Definition dets (token : nat) : list nat :=
  List.filter (fun c => String.eqb (dep_ d c) "det"
                        && negb (str_in (lemma_ d c) ["the"; "a"; "an"]))
    (children d token).

Fixpoint get_compound_parts (fuel : nat) (lemmatize : bool) (token : nat)
  : option Phrase :=
  match fuel with
  | 0 => None
  | S fuel' =>
    let rec := get_compound_parts fuel' lemmatize in
    (* acl / relcl children: markers, then the clause's own subjects *)
    acl ← mapM (fun child =>
             subs ← mapM rec (children_dep d "nsubj" child);
             Some (map (word lemmatize) (children_dep d "mark" child)
                     ++ map fst subs,
                   flat_map snd subs))
           (children_dep_in d ["acl"; "relcl"] token);
    let parts :=
      map (word lemmatize) (dets token)
      ++ flat_map fst acl
      ++ map (word lemmatize) (sorted_by_i (collect_modifiers token))
      ++ [word lemmatize token] in
    (* prepositional attachments *)
    preps ← mapM (fun prep =>
               mapM (fun p =>
                  items ← mapM (fun pobj => mapM rec (pobj :: conjuncts d pobj))
                             (children_dep d "pobj" p);
                  Some (join " " (text d p ::
                          flat_map (fun ph => fst ph :: snd ph) (concat items))))
                (prep :: conjuncts d prep))
             (children_dep d "prep" token);
    Some (join " " parts, flat_map snd acl ++ concat preps)
  end.
End Assembler.

(** ** Subject and Object Resolvers (lines 295-414 and 520-670) *)

(** The first non-empty result of [f] along a list, computing no more than
    needed: the loops that [break] once something was found. *)
Fixpoint first_nonempty {A B} (f : A -> option (list B)) (l : list A)
  : option (list B) :=
  match l with
  | [] => Some []
  | x :: l' =>
    r ← f x;
    if nonempty r then Some r else first_nonempty f l'
  end.

Section Resolvers.
Context `{Externals}.
Variable d : Doc.

(** [get_conjuncts(token, visited)]: the visited set is one mutable object
    shared by all the recursive calls, so it is threaded through them. *)
Fixpoint get_conjuncts (fuel : nat) (token : nat) (visited : gset nat)
  : option (list nat * gset nat) :=
  match fuel with
  | 0 => None
  | S fuel' =>
    foldl (fun acc conj =>
             st ← acc;
             if bool_decide (conj ∈ st.2) then Some st
             else r ← get_conjuncts fuel' conj st.2;
                  Some (st.1 ++ r.1, r.2))
          (Some ([token], {[token]} ∪ visited))
          (conjuncts d token)
  end.

(** [extract_clause]: the lemmas of the subtree, in document order. *)
Definition extract_clause (token : nat) : string :=
  join " " (map (lemma_ d) (sorted_by_i (subtree d token))).

Definition extract_subjects (fuel : nat) (subject_token : nat)
  : option (list Phrase) :=
  own ← (if str_in (pos_ d subject_token) nominal
         then p ← get_compound_parts d fuel false subject_token; Some [p]
         else Some []);
  conj ← mapM (get_compound_parts d fuel false)
            (List.filter (fun c => str_in (pos_ d c) nominal)
               (conjuncts d subject_token));
  Some (own ++ conj).

(** One entry of [extract_objects]: the assembled phrase, with the
    preposition in front when the token is a [pobj]. *)
Definition object_entry (fuel : nat) (token : nat) : option Phrase :=
  p ← get_compound_parts d fuel true token;
  Some (if String.eqb (dep_ d token) "pobj"
        then (text d (head d token) +:+ " " +:+ p.1, p.2)
        else p).

Definition extract_objects (fuel : nat) (object_token : nat)
  : option (list Phrase) :=
  own ← (if str_in (pos_ d object_token) nominal
            || py_substr (dep_ d object_token) "acomp"
         then p ← object_entry fuel object_token; Some [p]
         else Some []);
  conj ← mapM (object_entry fuel)
            (List.filter (fun c => str_in (pos_ d c) ["NOUN"; "PROPN"; "PRON"; "ADJ"])
               (conjuncts d object_token));
  Some (own ++ conj).

(** The candidates of the ancestor rule, in the order the loops meet them. *)
Definition ancestor_subjects (verb : nat) : list nat :=
  flat_map (children_dep_in d ["nsubj"; "nsubjpass"; "csubj"]) (ancestors d verb).

(** The agents' [pobj] children, read only when a passive subject exists. *)
Definition agent_pobjs (verb : nat) : list nat :=
  if nonempty (children_dep d "nsubjpass" verb)
  then flat_map (children_dep d "pobj") (children_dep d "agent" verb)
  else [].

Definition conj_nouns (verb : nat) : list nat :=
  List.filter (fun c => String.eqb (dep_ d c) "conj" && str_in (pos_ d c) nominal)
    (children d verb).

Definition is_imperative (verb : nat) : bool :=
  Nat.eqb (head d verb) verb
  && (bool_decide (mood d verb = ["Imp"]) || String.eqb (tag_ d verb) "VB").

Fixpoint get_verb_subjects (fuel : nat) (verb : nat) : option (list Phrase) :=
  match fuel with
  | 0 => None
  | S fuel' =>
    let expand toks := l ← mapM (extract_subjects fuel') toks; Some (concat l) in
    if str_in (dep_ d verb) ["acl"; "relcl"] then
      if nonempty (children_dep d "nsubj" verb)
      then expand (children_dep d "nsubj" verb)
      else p ← get_compound_parts d fuel' false (head d verb); Some [p]
    else
      direct ← expand (children_dep_in d ["nsubj"] verb);
      let clausal :=
        map (fun c => (extract_clause c, [])) (children_dep d "csubj" verb) in
      agents ← expand (agent_pobjs verb);
      let subjects := direct ++ clausal ++ agents in
      subjects ← (if nonempty subjects then Some subjects
                  else first_nonempty (extract_subjects fuel') (ancestor_subjects verb));
      subjects ← (if negb (nonempty subjects)
                     && String.eqb (dep_ d verb) "conj"
                     && String.eqb (pos_ d (head d verb)) "VERB"
                  then get_verb_subjects fuel' (head d verb)
                  else Some subjects);
      extra ← expand (conj_nouns verb);
      let subjects := subjects ++ extra in
      Some (if negb (nonempty subjects) && is_imperative verb
            then subjects ++ [("you", [])]
            else subjects)
  end.

Fixpoint get_verb_objects (fuel : nat) (verb : nat) : option (list Phrase) :=
  match fuel with
  | 0 => None
  | S fuel' =>
    let process_objects toks :=
      l ← mapM (extract_objects fuel') toks; Some (concat l) in
    direct ← process_objects (children_dep_in d ["dobj"; "attr"; "oprd"; "acomp"] verb);
    indirect ← process_objects (children_dep d "iobj" verb);
    prepositional ←
      (l ← mapM (fun prep =>
              preps ← get_conjuncts fuel' prep ∅;
              l ← mapM (fun p => process_objects (children_dep d "pobj" p)) preps.1;
              Some (concat l))
           (children_dep d "prep" verb);
       Some (concat l));
    passive ←
      (if str_in (tag_ d verb) ["VBN"; "VBD"]
          && nonempty (children_dep d "nsubjpass" verb)
       then process_objects (children_dep d "nsubjpass" verb)
       else Some []);
    adverbial ←
      process_objects
        (List.filter (fun c => String.eqb (dep_ d c) "npadvmod"
                               && str_in (pos_ d c) ["PROPN"; "PRON"])
           (children d verb));
    clausal ←
      (l ← mapM (fun child =>
              l ← mapM (extract_subjects fuel')
                    (children_dep_in d ["nsubj"; "nsubjpass"] child);
              Some (concat l))
           (children_dep_in d ["ccomp"] verb);
       Some (concat l));
    open ←
      (l ← mapM (fun xcomp_child =>
              xcomp_objects ← get_verb_objects fuel' xcomp_child;
              if nonempty xcomp_objects then Some xcomp_objects
              else l ← mapM (extract_objects fuel')
                         (children_dep_in d ["dobj"; "attr"; "oprd"] xcomp_child);
                   Some (concat l))
           (children_dep d "xcomp" verb);
       Some (concat l));
    let objects :=
      direct ++ indirect ++ prepositional ++ passive ++ adverbial
      ++ clausal ++ open in
    if nonempty objects then Some objects
    else first_nonempty (get_verb_objects fuel')
           (List.filter (fun c => String.eqb (dep_ d c) "conj"
                                  && String.eqb (pos_ d c) "VERB")
              (children d verb))
  end.

(** ** Verb Phrase Assembler ([get_verb_phrase], lines 225-291) *)

Definition is_aux (c : nat) : bool :=
  str_in (dep_ d c) ["aux"; "auxpass"; "neg"]
  && negb (str_in (lemma_ d c) _VAGUE_AUX).

Definition is_adverbial (c : nat) : bool :=
  str_in (dep_ d c) ["advmod"; "amod"; "npadvmod"]
  && negb (str_in (pos_ d c) ["SCONJ"; "CCONJ"; "PART"; "DET"])
  && negb (str_in (lemma_ d c) _VAGUE_ADVMODS).

Fixpoint get_verb_phrase (fuel : nat) (verb : nat) : option (list string) :=
  match fuel with
  | 0 => None
  | S fuel' =>
    let adverbials side :=
      mapM (fun c => p ← get_compound_parts d fuel' true c; Some p.1)
        (List.filter is_adverbial side) in
    before ← adverbials (lefts d verb);
    after ← adverbials (rights d verb);
    chained ← mapM (fun child =>
                 child_verb_phrase ← get_verb_phrase fuel' child;
                 Some (lemma_ d child :: drop 1 child_verb_phrase))
               (children_dep_in d ["xcomp"] verb);
    Some [join " "
            (map (lemma_ d) (List.filter is_aux (lefts d verb))
             ++ before
             ++ [lemma_ d verb]
             ++ after
             ++ map (lemma_ d) (List.filter is_aux (rights d verb))
             ++ concat chained)]
  end.
End Resolvers.

(** ** Relation Builder ([are_synonyms] and [extract_svos], lines 90-223) *)

Record Row := {
  Node_1 : string;
  WDW : string;
  Node_2 : string;
  WDW2 : string;
  Hypergraph : string;
  Semantic_Syntactic : nat
}.

Record DataFrame := { df_columns : list string; df_rows : list Row }.

Definition mk_row (n1 r1 n2 r2 trace : string) (kind : nat) : Row :=
  {| Node_1 := n1; WDW := r1; Node_2 := n2; WDW2 := r2;
     Hypergraph := trace; Semantic_Syntactic := kind |}.

Definition svo_columns : list string :=
  ["Node 1"; "WDW"; "Node 2"; "WDW2"; "Hypergraph"; "Semantic-Syntactic"].

Section Builder.
Context `{Externals}.

(** [are_synonyms(word1, word2)]. *)
Definition are_synonyms (word1 word2 : string) : bool :=
  existsb (fun syn1 =>
    existsb (fun syn2 =>
      String.eqb (syn_name syn1) (syn_name syn2)
      || existsb (fun name => str_in name (syn_lemma_names syn2))
           (syn_lemma_names syn1))
      (wn_synsets word2))
    (wn_synsets word1).

Variable d : Doc.

(** The filter in front of the three resolver calls. *)
Definition qualifies (possible_verb : nat) : bool :=
  str_in (pos_ d possible_verb) ["VERB"; "AUX"]
  && negb (str_in (dep_ d possible_verb)
             ["aux"; "auxpass"; "amod"; "npadvmod"; "prep"; "xcomp"; "csubj"])
  && negb (String.eqb (dep_ d possible_verb) "conj"
           && str_in (dep_ d (head d possible_verb))
                ["aux"; "auxpass"; "amod"; "prep"; "xcomp"; "csubj"]).

Definition svo_of (fuel : nat) (possible_verb : nat) : option SVO :=
  subjects ← get_verb_subjects d fuel possible_verb;
  objects ← get_verb_objects d fuel possible_verb;
  verb_phrase ← get_verb_phrase d fuel possible_verb;
  Some (subjects, verb_phrase, objects).

Definition svo_triples (fuel : nat) : option (list SVO) :=
  mapM (svo_of fuel) (List.filter qualifies (indices d)).
End Builder.

Section Rows.
Context `{Externals}.

(** The rows of one extraction, in the order the loops append them. *)
Definition who_did_rows (svo : SVO) : list Row :=
  let '(subjects, verbs, objects) := svo in
  flat_map (fun subj =>
    map (fun verb => mk_row subj.1 "Who" verb "Did" (py_str svo) 0) verbs)
    subjects.

Definition did_what_rows (svo : SVO) : list Row :=
  let '(subjects, verbs, objects) := svo in
  flat_map (fun verb =>
    map (fun obj => mk_row verb "Did" obj.1 "What" (py_str svo) 0) objects)
    verbs.

Definition who_who_rows (svo : SVO) : list Row :=
  let '(subjects, verbs, objects) := svo in
  if Nat.ltb 1 (length subjects)
  then map (fun p => mk_row p.1.1 "Who" p.2.1 "Who" (py_str svo) 0)
         (combinations2 subjects)
  else [].

Definition what_what_rows (svo : SVO) : list Row :=
  let '(subjects, verbs, objects) := svo in
  if Nat.ltb 1 (length objects)
  then map (fun p => mk_row p.1.1 "What" p.2.1 "What" (py_str svo) 0)
         (combinations2 objects)
  else [].

Definition svo_rows (svo : SVO) : list Row :=
  who_did_rows svo ++ did_what_rows svo ++ who_who_rows svo ++ what_what_rows svo.

Definition all_subjects (svos : list SVO) : list string :=
  flat_map (fun svo => map fst svo.1.1) svos.

Definition all_objects (svos : list SVO) : list string :=
  flat_map (fun svo => map fst svo.2) svos.

(** The synonym pass over the distinct strings of one role. *)
Definition synonym_rows (role : string) (nodes : list string) : list Row :=
  map (fun p => mk_row p.1 role p.2 role "N/A" 1)
    (List.filter (fun p => are_synonyms p.1 p.2) (combinations2 nodes)).

Definition semantic_rows (svos : list SVO) : list Row :=
  synonym_rows "Who" (list_of_set (all_subjects svos))
  ++ synonym_rows "What" (list_of_set (all_objects svos)).

Definition syntactic_rows (svos : list SVO) : list Row :=
  flat_map svo_rows svos.

Definition extract_svos (fuel : nat) (doc : Doc) : option DataFrame :=
  svos ← svo_triples doc fuel;
  Some {| df_columns := svo_columns;
          df_rows := syntactic_rows svos ++ semantic_rows svos |}.
End Rows.

(** ** Sample collaborators and parsed sentences *)

Module Sample.
Definition repr_str (s : string) : string := "'" +:+ s +:+ "'".
Definition repr_list {A} (f : A -> string) (l : list A) : string :=
  "[" +:+ join ", " (map f l) +:+ "]".
Definition repr_phrase (p : Phrase) : string :=
  "(" +:+ repr_str p.1 +:+ ", " +:+ repr_list repr_str p.2 +:+ ")".
Definition repr_svo (svo : SVO) : string :=
  "[" +:+ repr_list repr_phrase svo.1.1 +:+ ", "
      +:+ repr_list repr_str svo.1.2 +:+ ", "
      +:+ repr_list repr_phrase svo.2 +:+ "]".

(** A two-entry WordNet: "doctor" and "physician" share a synset. *)
Definition doctor_n_01 : Synset :=
  {| syn_name := "doctor.n.01";
     syn_lemma_names := ["doctor"; "doc"; "physician"; "MD"] |}.

Definition synsets (w : string) : list Synset :=
  if String.eqb w "doctor" then [doctor_n_01]
  else if String.eqb w "physician" then [doctor_n_01]
  else [].

Definition externals (vague_aux vague_advmods : list string) : Externals :=
  {| _VAGUE_AUX := vague_aux;
     _VAGUE_ADVMODS := vague_advmods;
     wn_synsets := synsets;
     list_of_set := remove_dups;
     list_of_set_NoDup := NoDup_remove_dups;
     list_of_set_elem := fun l x => elem_of_remove_dups l x;
     py_str := repr_svo |}.

Definition plain : Externals := externals [] [].

Definition T (text lemma pos tag dep : string) (head : nat)
    (conjuncts : list nat) : Token :=
  {| t_text := text; t_lemma := lemma; t_pos := pos; t_tag := tag;
     t_dep := dep; t_head := head; t_conjuncts := conjuncts; t_mood := [] |}.

(** "Alice and Bob left" *)
Definition alice_and_bob_left : Doc :=
  [ T "Alice" "Alice" "PROPN" "NNP" "nsubj" 3 [2];
    T "and" "and" "CCONJ" "CC" "cc" 0 [];
    T "Bob" "Bob" "PROPN" "NNP" "conj" 0 [0];
    T "left" "leave" "VERB" "VBD" "ROOT" 3 [] ].

(** "Alice and Bob eat apples, pears and plums" (punctuation left out) *)
Definition alice_and_bob_eat : Doc :=
  [ T "Alice" "Alice" "PROPN" "NNP" "nsubj" 3 [2];
    T "and" "and" "CCONJ" "CC" "cc" 0 [];
    T "Bob" "Bob" "PROPN" "NNP" "conj" 0 [0];
    T "eat" "eat" "VERB" "VBP" "ROOT" 3 [];
    T "apples" "apple" "NOUN" "NNS" "dobj" 3 [5; 7];
    T "pears" "pear" "NOUN" "NNS" "conj" 4 [4; 7];
    T "and" "and" "CCONJ" "CC" "cc" 5 [];
    T "plums" "plum" "NOUN" "NNS" "conj" 5 [4; 5] ].

(** "The cake was eaten by Alice" *)
Definition cake_was_eaten : Doc :=
  [ T "The" "the" "DET" "DT" "det" 1 [];
    T "cake" "cake" "NOUN" "NN" "nsubjpass" 3 [];
    T "was" "be" "AUX" "VBD" "auxpass" 3 [];
    T "eaten" "eat" "VERB" "VBN" "ROOT" 3 [];
    T "by" "by" "ADP" "IN" "agent" 3 [];
    T "Alice" "Alice" "PROPN" "NNP" "pobj" 4 [] ].

(** "The cake that was eaten by Alice was good" *)
Definition cake_that_was_eaten : Doc :=
  [ T "The" "the" "DET" "DT" "det" 1 [];
    T "cake" "cake" "NOUN" "NN" "nsubj" 7 [];
    T "that" "that" "PRON" "WDT" "nsubjpass" 4 [];
    T "was" "be" "AUX" "VBD" "auxpass" 4 [];
    T "eaten" "eat" "VERB" "VBN" "relcl" 1 [];
    T "by" "by" "ADP" "IN" "agent" 4 [];
    T "Alice" "Alice" "PROPN" "NNP" "pobj" 5 [];
    T "was" "be" "AUX" "VBD" "ROOT" 7 [];
    T "good" "good" "ADJ" "JJ" "acomp" 7 [] ].

(** "She wants to not go" *)
Definition she_wants_to_not_go : Doc :=
  [ T "She" "she" "PRON" "PRP" "nsubj" 1 [];
    T "wants" "want" "VERB" "VBZ" "ROOT" 1 [];
    T "to" "to" "PART" "TO" "aux" 4 [];
    T "not" "not" "PART" "RB" "neg" 4 [];
    T "go" "go" "VERB" "VB" "xcomp" 1 [] ].

(** "The doctor left and the physician stayed" *)
Definition doctor_and_physician : Doc :=
  [ T "The" "the" "DET" "DT" "det" 1 [];
    T "doctor" "doctor" "NOUN" "NN" "nsubj" 2 [];
    T "left" "leave" "VERB" "VBD" "ROOT" 2 [6];
    T "and" "and" "CCONJ" "CC" "cc" 2 [];
    T "the" "the" "DET" "DT" "det" 5 [];
    T "physician" "physician" "NOUN" "NN" "nsubj" 6 [];
    T "stayed" "stay" "VERB" "VBD" "conj" 2 [2] ].

(** "Home, walking and talking nonsense" (fragment): a verb coordinated
    with a verb attached as noun-phrase adverbial modifier. *)
Definition conj_of_npadvmod : Doc :=
  [ T "home" "home" "NOUN" "NN" "ROOT" 0 [];
    T "walking" "walk" "VERB" "VBG" "npadvmod" 0 [2];
    T "talking" "talk" "VERB" "VBG" "conj" 1 [1];
    T "nonsense" "nonsense" "NOUN" "NN" "dobj" 2 [] ].

(** A single verb labelled [conj] that is its own head. *)
Definition lone_conj : Doc :=
  [ T "went" "go" "VERB" "VBD" "conj" 0 [] ].

(** Two prepositions listing each other as conjuncts. *)
Definition mutual_conjuncts : Doc :=
  [ T "look" "look" "VERB" "VB" "ROOT" 0 [];
    T "at" "at" "ADP" "IN" "prep" 0 [2];
    T "into" "into" "ADP" "IN" "conj" 1 [1; 2] ].

(** "Close the door" *)
Definition close_the_door : Doc :=
  [ T "Close" "close" "VERB" "VB" "ROOT" 0 [];
    T "the" "the" "DET" "DT" "det" 2 [];
    T "door" "door" "NOUN" "NN" "dobj" 0 [] ].

(** A prepositional object that lists the noun it is attached to among its
    conjuncts. *)
Definition pobj_cycle : Doc :=
  [ T "man" "man" "NOUN" "NN" "ROOT" 0 [];
    T "with" "with" "ADP" "IN" "prep" 0 [];
    T "dog" "dog" "NOUN" "NN" "pobj" 1 [0] ].


(** "I saw the doctor and called the physician" *)
Definition saw_doctor_called_physician : Doc :=
  [ T "I" "I" "PRON" "PRP" "nsubj" 1 [];
    T "saw" "see" "VERB" "VBD" "ROOT" 1 [5];
    T "the" "the" "DET" "DT" "det" 3 [];
    T "doctor" "doctor" "NOUN" "NN" "dobj" 1 [];
    T "and" "and" "CCONJ" "CC" "cc" 1 [];
    T "called" "call" "VERB" "VBD" "conj" 1 [1];
    T "the" "the" "DET" "DT" "det" 7 [];
    T "physician" "physician" "NOUN" "NN" "dobj" 5 [] ].

(** "She wants to eat apples" *)
Definition she_wants_to_eat_apples : Doc :=
  [ T "She" "she" "PRON" "PRP" "nsubj" 1 [];
    T "wants" "want" "VERB" "VBZ" "ROOT" 1 [];
    T "to" "to" "PART" "TO" "aux" 3 [];
    T "eat" "eat" "VERB" "VB" "xcomp" 1 [];
    T "apples" "apple" "NOUN" "NNS" "dobj" 3 [] ].

(** "These bigger dogs barked" *)
Definition these_bigger_dogs : Doc :=
  [ T "These" "this" "DET" "DT" "det" 2 [];
    T "bigger" "big" "ADJ" "JJR" "amod" 2 [];
    T "dogs" "dog" "NOUN" "NNS" "nsubj" 3 [];
    T "barked" "bark" "VERB" "VBD" "ROOT" 3 [] ].


(** "Hello world": no token of class VERB or AUX. *)
Definition no_action : Doc :=
  [ T "Hello" "hello" "INTJ" "UH" "ROOT" 0 [];
    T "world" "world" "NOUN" "NN" "npadvmod" 0 [] ].
End Sample.

(** ** The qualifying-token filter as the specification words it *)

Definition excluded_labels : list string :=
  ["aux"; "auxpass"; "amod"; "npadvmod"; "prep"; "xcomp"; "csubj"].

(** Class VERB or AUX, own label outside the seven, and not a [conj] whose
    head carries one of the same seven. *)
Definition qualifies_as_specified (d : Doc) (possible_verb : nat) : bool :=
  str_in (pos_ d possible_verb) ["VERB"; "AUX"]
  && negb (str_in (dep_ d possible_verb) excluded_labels)
  && negb (String.eqb (dep_ d possible_verb) "conj"
           && str_in (dep_ d (head d possible_verb)) excluded_labels).

(** ** Reading the relation table *)

Definition has_roles (r1 r2 : string) (r : Row) : bool :=
  String.eqb (WDW r) r1 && String.eqb (WDW2 r) r2.

Definition count_roles (r1 r2 : string) (rows : list Row) : nat :=
  length (List.filter (has_roles r1 r2) rows).

(** The role restriction of the table's interface description. *)
Definition roles_as_specified (r : Row) : Prop :=
  (WDW r = "Who" \/ WDW r = "Did") /\ (WDW2 r = "Did" \/ WDW2 r = "What").

(** The four role pairs the builder writes. *)
Definition role_pairs : list (string * string) :=
  [("Who", "Did"); ("Did", "What"); ("Who", "Who"); ("What", "What")].

Definition role_pair_ok (r : Row) : Prop := (WDW r, WDW2 r) ∈ role_pairs.

(** The unordered pair [{a, b}]. *)
Definition pair_is (a b : string) (p : string * string) : bool :=
  (String.eqb p.1 a && String.eqb p.2 b) || (String.eqb p.1 b && String.eqb p.2 a).

(** A semantic row of role [role], without trace, linking [a] and [b] in
    either order. *)
Definition links (role a b : string) (r : Row) : bool :=
  Nat.eqb (Semantic_Syntactic r) 1
  && String.eqb (Hypergraph r) "N/A"
  && has_roles role role r
  && pair_is a b (Node_1 r, Node_2 r).

(** The number of occurrences of a string. *)
Definition occ (c : string) (l : list string) : nat :=
  length (List.filter (fun y => String.eqb y c) l).

(** ** Well-formed parses

    A dependency parse is a forest: a rank (the height of a token above its
    leaves) falls along every head link.  The conjuncts of a preposition or
    of a prepositional object lie below it, a coordinated token is attached
    to another token, and side-links stay inside the document. *)

Definition conjuncts_closed (d : Doc) : Prop :=
  forall i c, c ∈ conjuncts d i -> c < length d.

Record Parsed (d : Doc) (rank : nat -> nat) : Prop := {
  rank_bound : forall i, rank i <= length d;
  rank_child : forall i j, j ∈ children d i -> rank j < rank i;
  rank_conjunct : forall i c,
    dep_ d i ∈ ["prep"; "pobj"] -> c ∈ conjuncts d i -> rank c <= rank i;
  conj_has_head : forall i, dep_ d i = "conj" -> head d i <> i;
  conjuncts_in_range : conjuncts_closed d
}.

(** The same conditions as a check on a table of ranks. *)
Definition rank_of (ranks : list nat) (i : nat) : nat := nth i ranks 0.

Definition parsed_b (d : Doc) (ranks : list nat) : bool :=
  forallb (fun r => Nat.leb r (length d)) ranks
  && forallb (fun j => Nat.eqb (head d j) j
                       || Nat.ltb (rank_of ranks j) (rank_of ranks (head d j)))
       (indices d)
  && forallb (fun i => negb (str_in (dep_ d i) ["prep"; "pobj"])
                       || forallb (fun c => Nat.leb (rank_of ranks c) (rank_of ranks i))
                            (conjuncts d i))
       (indices d)
  && forallb (fun i => negb (String.eqb (dep_ d i) "conj")
                       || negb (Nat.eqb (head d i) i))
       (indices d)
  && forallb (fun i => forallb (fun c => Nat.ltb c (length d)) (conjuncts d i))
       (indices d).

(** ** Table summaries ([extract_set_subjects], [extract_set_objects],
    [extract_set_verbs], lines 35-83)

    The valence scorer of [nlp_utils] is supplied from outside; the result
    is a Python set of (string, valence) tuples. *)

(** [Series.unique()]: the distinct values, in order of first appearance. *)
Fixpoint unique (l : list string) : list string :=
  match l with
  | [] => []
  | x :: l' => x :: List.filter (fun y => negb (String.eqb y x)) (unique l')
  end.

Section Summaries.
Context {V : Type} `{Countable V}.
Variable compute_valence : string -> V.

(** The loop that adds [(word, compute_valence(word))] to a set. *)
Definition valence_tuples (words : list string) : gset (string * V) :=
  list_to_set (map (fun w => (w, compute_valence w)) words).

Definition extract_set_subjects (df : DataFrame) : gset (string * V) :=
  let df_subjects := List.filter (fun r => String.eqb (WDW r) "Who") (df_rows df) in
  valence_tuples (unique (map Node_1 df_subjects)).

Definition extract_set_objects (df : DataFrame) : gset (string * V) :=
  let df_objects := List.filter (fun r => String.eqb (WDW2 r) "What") (df_rows df) in
  valence_tuples (unique (map Node_2 df_objects)).

Definition extract_set_verbs (df : DataFrame) : gset (string * V) :=
  let verbs_node1 :=
    map Node_1 (List.filter (fun r => String.eqb (WDW r) "Did") (df_rows df)) in
  let verbs_node2 :=
    map Node_2 (List.filter (fun r => String.eqb (WDW2 r) "Did") (df_rows df)) in
  valence_tuples (unique (verbs_node1 ++ verbs_node2)).
End Summaries.

(** ** Conjunct links as a graph *)

(** [b] is listed among the conjuncts of [a]. *)
Definition conj_link (d : Doc) (a b : nat) : Prop := b ∈ conjuncts d a.

(** The body of the loop of [get_conjuncts], given the depth left. *)
Definition chase_step (d : Doc) (fuel : nat)
    (acc : option (list nat * gset nat)) (conj : nat)
  : option (list nat * gset nat) :=
  st ← acc;
  if bool_decide (conj ∈ st.2) then Some st
  else r ← get_conjuncts d fuel conj st.2;
       Some (st.1 ++ r.1, r.2).

(** ** Labels accepted by the substring test of [extract_objects] *)

(** The strings [x] with [x in 'acomp']. *)
Definition acomp_labels : list string :=
  [""; "a"; "ac"; "aco"; "acom"; "acomp"; "c"; "co"; "com"; "comp";
   "o"; "om"; "omp"; "m"; "mp"; "p"].

(** ** The tokens of an assembled phrase

    [get_compound_parts] appends one word per token it reaches; the
    traversal below keeps the tokens instead of their words, in the same
    order: the tokens of the main string, and for each prepositional
    attachment the preposition followed by the tokens of its objects. *)



Section PhraseTokens.
Variable d : Doc.





End PhraseTokens.






(** * Properties *)

(** ** Python helpers *)

Lemma str_in_spec x l : str_in x l = true <-> x ∈ l.
Proof.
  unfold str_in. rewrite existsb_exists. split.
  - intros (y & Hy & Heq). apply String.eqb_eq in Heq. subst.
    by apply list_elem_of_In.
  - intros Hx. exists x. split; [by apply list_elem_of_In | apply String.eqb_refl].
Qed.

Lemma str_in_false x l : str_in x l = false <-> x ∉ l.
Proof.
  rewrite <- str_in_spec. destruct (str_in x l); split; congruence.
Qed.

Lemma nonempty_false {A} (l : list A) : nonempty l = false <-> l = [].
Proof. destruct l; simpl; split; congruence. Qed.

Lemma filter_none {A} (f : A -> bool) l :
  (forall x, x ∈ l -> f x = false) -> List.filter f l = [].
Proof.
  induction l as [|x l IH]; intros Hf; [done|].
  simpl. rewrite (Hf x) by left. apply IH. intros y Hy. apply Hf. by right.
Qed.

Lemma elem_of_indices d i : i ∈ indices d <-> i < length d.
Proof. unfold indices. rewrite elem_of_seq. lia. Qed.

(** ** The iteration order of a set *)

Lemma list_of_set_nil `{Externals} : list_of_set [] = [].
Proof.
  destruct (list_of_set []) as [|x l] eqn:Hl; [done|].
  assert (Hx : x ∈ ([] : list string)) by (apply list_of_set_elem; rewrite Hl; left).
  by apply elem_of_nil in Hx.
Qed.

Lemma list_of_set_singleton `{Externals} (s : string) :
  exists y, list_of_set [s] = [y].
Proof.
  pose proof (list_of_set_NoDup [s]) as Hnd.
  pose proof (list_of_set_elem [s]) as Hel.
  destruct (list_of_set [s]) as [|x [|y l]].
  - exfalso. specialize (Hel s). rewrite list_elem_of_singleton in Hel.
    destruct Hel as [_ Hel]. specialize (Hel eq_refl). by apply elem_of_nil in Hel.
  - by exists x.
  - exfalso.
    assert (Hx : x = s) by (apply list_elem_of_singleton, Hel; left).
    assert (Hy : y = s) by (apply list_elem_of_singleton, Hel; right; left).
    subst. apply NoDup_cons in Hnd as [Hnd _]. apply Hnd. left.
Qed.

(** ** The filter (C1, C9) *)

(** What the filter tests, label by label. *)
Lemma qualifies_spec d i :
  qualifies d i = true <->
  (pos_ d i ∈ ["VERB"; "AUX"])
  /\ (dep_ d i ∉ excluded_labels)
  /\ ~ (dep_ d i = "conj"
        /\ dep_ d (head d i) ∈ ["aux"; "auxpass"; "amod"; "prep"; "xcomp"; "csubj"]).
Proof.
  unfold qualifies, excluded_labels.
  rewrite !andb_true_iff, !negb_true_iff, andb_false_iff.
  rewrite str_in_spec, !str_in_false, String.eqb_neq.
  split.
  - intros [[Hp Hd] Hc]. split; [exact Hp|]. split; [exact Hd|].
    intros [He Hh]. destruct Hc; done.
  - intros (Hp & Hd & Hc). split; [by split|].
    destruct (decide (dep_ d i = "conj")) as [He|He]; [right|by left].
    intros Hh. apply Hc. done.
Qed.

(** Every token the specified filter accepts is accepted by the code; the two
    differ exactly on a [conj] whose head is labelled [npadvmod]. *)
Lemma qualifies_as_specified_sound d i :
  qualifies_as_specified d i = true -> qualifies d i = true.
Proof.
  unfold qualifies_as_specified, qualifies, excluded_labels.
  rewrite !andb_true_iff, !negb_true_iff, !andb_false_iff.
  intros [[Hp Hd] Hc]. split; [done|].
  destruct Hc as [Hc|Hc]; [by left|right].
  apply str_in_false. apply str_in_false in Hc.
  intros Hin. apply Hc. set_solver.
Qed.

Lemma qualifies_beyond_specified d i :
  qualifies d i = true -> qualifies_as_specified d i = false ->
  dep_ d i = "conj" /\ dep_ d (head d i) = "npadvmod".
Proof.
  unfold qualifies_as_specified, qualifies, excluded_labels.
  rewrite !andb_true_iff, !negb_true_iff, !andb_false_iff, !negb_false_iff.
  rewrite andb_true_iff.
  intros [[Hp Hd] Hc] [[Hp'|Hd']|[He Hh]]; [congruence..|].
  apply String.eqb_eq in He. split; [done|].
  destruct Hc as [Hc|Hc]; [rewrite He in Hc; done|].
  apply str_in_spec in Hh. apply str_in_false in Hc.
  rewrite !elem_of_cons, elem_of_nil in *. naive_solver.
Qed.

(** C1. A verb coordinated with a head labelled [npadvmod] is not to be
    extracted according to the filter as specified (the head carries one of
    the seven labels), yet the filter of [extract_svos] lets it through: the
    head-label list of the [conj] test has six labels and misses [npadvmod].
    In "home, walking and talking nonsense" the token "talking" is extracted
    and yields a row. *)
Theorem qualifies_conj_of_npadvmod :
  forall E : Externals,
    qualifies_as_specified Sample.conj_of_npadvmod 2 = false
    /\ qualifies Sample.conj_of_npadvmod 2 = true
    /\ svo_triples Sample.conj_of_npadvmod 3
       = Some [([], ["talk"], [("nonsense", [])])]
    /\ (df_rows <$> extract_svos 3 Sample.conj_of_npadvmod)
       = Some [mk_row "talk" "Did" "nonsense" "What"
                 (py_str ([], ["talk"], [("nonsense", [])])) 0].
Proof.
  intros E. split; [done|]. split; [done|].
  assert (Hsvo : svo_triples Sample.conj_of_npadvmod 3
                 = Some [([], ["talk"], [("nonsense", [])])]) by (vm_compute; done).
  split; [done|].
  unfold extract_svos. rewrite Hsvo. simpl.
  unfold semantic_rows, all_subjects, all_objects. simpl.
  rewrite list_of_set_nil.
  destruct (list_of_set_singleton "nonsense") as [y Hy]. rewrite Hy. done.
Qed.

(** A document none of whose tokens passes the filter of the code yields,
    whatever the recursion bound, an empty table that still carries the six
    columns Node 1, WDW, Node 2, WDW2, Hypergraph, Semantic-Syntactic. *)
Lemma extract_svos_no_action `{Externals} (fuel : nat) (doc : Doc) :
  (forall i, i < length doc -> qualifies doc i = false) ->
  extract_svos fuel doc
  = Some {| df_columns := ["Node 1"; "WDW"; "Node 2"; "WDW2"; "Hypergraph";
                           "Semantic-Syntactic"];
            df_rows := [] |}.
Proof.
  intros Hnone. unfold extract_svos, svo_triples.
  rewrite filter_none by (intros i Hi; apply Hnone; by apply elem_of_indices).
  simpl. unfold semantic_rows, all_subjects, all_objects. simpl.
  by rewrite list_of_set_nil.
Qed.

Lemma extract_svos_no_action_witness :
  (forall i, i < length Sample.no_action -> qualifies Sample.no_action i = false)
  /\ @extract_svos Sample.plain 0 Sample.no_action
     = Some {| df_columns := ["Node 1"; "WDW"; "Node 2"; "WDW2"; "Hypergraph";
                              "Semantic-Syntactic"];
               df_rows := [] |}.
Proof.
  assert (Hq : forall i, i < length Sample.no_action ->
                         qualifies Sample.no_action i = false).
  { intros i Hi. simpl in Hi.
    destruct i as [|[|i]]; [reflexivity | reflexivity | lia]. }
  split; [exact Hq|].
  exact (@extract_svos_no_action Sample.plain 0 Sample.no_action Hq).
Defined.

(** ** The rows of the table (C2, C3) *)

Lemma Forall_flat_map_intro {A B} (P : B -> Prop) (f : A -> list B) l :
  (forall x, x ∈ l -> Forall P (f x)) -> Forall P (flat_map f l).
Proof.
  induction l as [|x l IH]; intros Hf; simpl; [constructor|].
  apply Forall_app. split; [apply Hf; left|].
  apply IH. intros y Hy. apply Hf. by right.
Qed.

Lemma Forall_map_intro {A B} (P : B -> Prop) (f : A -> B) l :
  (forall x, P (f x)) -> Forall P (map f l).
Proof. intros Hf. induction l; simpl; constructor; auto. Qed.

Section RowShapes.
Context `{Externals}.

Lemma svo_rows_role_pairs svo : Forall role_pair_ok (svo_rows svo).
Proof.
  destruct svo as [[subjects verbs] objects].
  unfold svo_rows, who_did_rows, did_what_rows, who_who_rows, what_what_rows.
  repeat apply Forall_app_2.
  - apply Forall_flat_map_intro. intros s _. apply Forall_map_intro. intros v.
    unfold role_pair_ok, role_pairs. simpl. left.
  - apply Forall_flat_map_intro. intros v _. apply Forall_map_intro. intros o.
    unfold role_pair_ok, role_pairs. simpl. right. left.
  - destruct (Nat.ltb 1 (length subjects)); [|constructor].
    apply Forall_map_intro. intros p.
    unfold role_pair_ok, role_pairs. simpl. do 2 right. left.
  - destruct (Nat.ltb 1 (length objects)); [|constructor].
    apply Forall_map_intro. intros p.
    unfold role_pair_ok, role_pairs. simpl. do 3 right. left.
Qed.

Lemma synonym_rows_role (role : string) nodes :
  Forall (fun r => WDW r = role /\ WDW2 r = role
                   /\ Hypergraph r = "N/A" /\ Semantic_Syntactic r = 1)
    (synonym_rows role nodes).
Proof. unfold synonym_rows. apply Forall_map_intro. intros p. done. Qed.

Lemma semantic_rows_role_pairs svos : Forall role_pair_ok (semantic_rows svos).
Proof.
  unfold semantic_rows. apply Forall_app_2.
  - eapply Forall_impl; [apply synonym_rows_role|].
    intros r (H1 & H2 & _). unfold role_pair_ok, role_pairs. rewrite H1, H2.
    do 2 right. left.
  - eapply Forall_impl; [apply synonym_rows_role|].
    intros r (H1 & H2 & _). unfold role_pair_ok, role_pairs. rewrite H1, H2.
    do 3 right. left.
Qed.
End RowShapes.

(** C2, as the code has it. Every row of a returned table carries one of the
    four role pairs Who-Did, Did-What, Who-Who, What-What: Role1 ranges over
    Who, Did, What and Role2 over Did, What, Who. *)
Theorem rows_role_pairs `{Externals} (fuel : nat) (doc : Doc) (df : DataFrame) :
  extract_svos fuel doc = Some df ->
  Forall (fun r => (WDW r, WDW2 r) ∈ role_pairs) (df_rows df).
Proof.
  unfold extract_svos. intros Hdf.
  apply bind_Some in Hdf as (svos & _ & Hdf). injection Hdf as <-. simpl.
  apply Forall_app_2.
  - unfold syntactic_rows. apply Forall_flat_map_intro. intros svo _.
    apply svo_rows_role_pairs.
  - apply semantic_rows_role_pairs.
Qed.

Lemma rows_role_pairs_witness :
  exists df,
    @extract_svos Sample.plain 4 Sample.alice_and_bob_left = Some df
    /\ Forall (fun r => (WDW r, WDW2 r) ∈ role_pairs) (df_rows df).
Proof.
  eexists. split; [vm_compute; reflexivity|].
  apply (@rows_role_pairs Sample.plain 4 Sample.alice_and_bob_left).
  vm_compute. reflexivity.
Defined.

(** C2, as stated, fails: "Alice and Bob left" yields the co-subject row
    (Alice, Who, Bob, Who), whose Role2 is neither Did nor What. *)
Lemma roles_as_specified_counterexample :
  exists df,
    @extract_svos Sample.plain 4 Sample.alice_and_bob_left = Some df
    /\ ~ Forall roles_as_specified (df_rows df).
Proof.
  eexists. split; [vm_compute; reflexivity|].
  simpl. intros Hall.
  apply Forall_cons in Hall as [_ Hall].
  apply Forall_cons in Hall as [_ Hall].
  apply Forall_cons in Hall as [[_ Hrole] _].
  simpl in Hrole. destruct Hrole as [Hrole|Hrole]; discriminate Hrole.
Qed.

(** The verb phrase sequence has exactly one element. *)
Lemma get_verb_phrase_singleton `{Externals} d fuel verb r :
  get_verb_phrase d fuel verb = Some r -> exists s, r = [s].
Proof.
  destruct fuel; simpl; [done|]. intros Hr.
  apply bind_Some in Hr as (before & _ & Hr).
  apply bind_Some in Hr as (after & _ & Hr).
  apply bind_Some in Hr as (chained & _ & Hr).
  injection Hr as <-. eauto.
Qed.

(** ** The verb phrase and its open complements (C6) *)


(** C6. In "She wants to not go" the complement "go" has the phrase
    "to not go" of its own (no word stop-listed), but the phrase of "wants" is
    "want go" under every stop-list: the complement's auxiliary and negation
    are not in it. *)
Theorem xcomp_modifiers_dropped :
  (forall E : Externals,
     @get_verb_phrase E Sample.she_wants_to_not_go 2 1 = Some ["want go"])
  /\ @get_verb_phrase Sample.plain Sample.she_wants_to_not_go 1 4
     = Some ["to not go"].
Proof.
  split; [|vm_compute; reflexivity].
  intros E. vm_compute. reflexivity.
Qed.

(** ** Termination on well-formed parses *)

Lemma elem_of_bfilter {A} (f : A -> bool) l x :
  x ∈ List.filter f l <-> f x = true /\ x ∈ l.
Proof. rewrite !list_elem_of_In, filter_In. tauto. Qed.

Lemma elem_of_children d i j :
  j ∈ children d i <-> j < length d /\ head d j = i /\ j <> i.
Proof.
  unfold children. rewrite elem_of_bfilter, elem_of_indices.
  rewrite andb_true_iff, negb_true_iff, Nat.eqb_eq, Nat.eqb_neq. tauto.
Qed.

Lemma elem_of_children_dep d label i c :
  c ∈ children_dep d label i <-> c ∈ children d i /\ dep_ d c = label.
Proof. unfold children_dep. rewrite elem_of_bfilter, String.eqb_eq. tauto. Qed.

Lemma elem_of_children_dep_in d labels i c :
  c ∈ children_dep_in d labels i <-> c ∈ children d i /\ dep_ d c ∈ labels.
Proof. unfold children_dep_in. rewrite elem_of_bfilter, str_in_spec. tauto. Qed.

Lemma tok_out_of_range d i : length d <= i -> tok d i = blank_token.
Proof.
  intros Hi. unfold tok. rewrite list_lookup_total_alt.
  by rewrite lookup_ge_None_2.
Qed.

Lemma bind_is_Some {A B} (m : option A) (k : A -> option B) :
  is_Some m -> (forall x, is_Some (k x)) -> is_Some (m ≫= k).
Proof. intros [x ->] Hk. simpl. apply Hk. Qed.

Lemma mapM_total {A B} (f : A -> option B) l :
  (forall x, x ∈ l -> is_Some (f x)) -> is_Some (mapM f l).
Proof. intros Hf. apply mapM_is_Some_2, Forall_forall. exact Hf. Qed.

Lemma first_nonempty_total {A B} (f : A -> option (list B)) l :
  (forall x, x ∈ l -> is_Some (f x)) -> is_Some (first_nonempty f l).
Proof.
  induction l as [|x l IH]; intros Hf; simpl; [done|].
  destruct (Hf x) as [r ->]; [left|]. simpl.
  destruct (nonempty r); [done|]. apply IH. intros y Hy. apply Hf. by right.
Qed.

Section ConjunctChase.
Variable d : Doc.
Hypothesis Hclosed : conjuncts_closed d.

(** Every call of the conjunct chase marks a token not marked before, so the
    unmarked tokens of the document bound its depth, whatever the side-links
    look like. *)
Lemma get_conjuncts_marks fuel token (visited : gset nat) :
  token < length d -> token ∉ visited ->
  size (list_to_set (indices d) ∖ visited : gset nat) <= fuel ->
  exists r, get_conjuncts d fuel token visited = Some r
            /\ {[token]} ∪ visited ⊆ r.2
            /\ r.1 !! 0 = Some token.
Proof.
  revert token visited. induction fuel as [|fuel IH]; intros token visited Ht Hnv Hsz.
  - exfalso.
    assert (Hin : token ∈ (list_to_set (indices d) ∖ visited : gset nat)).
    { apply elem_of_difference. split; [|done].
      apply elem_of_list_to_set, elem_of_indices. done. }
    assert (Hsize : size (list_to_set (indices d) ∖ visited : gset nat) = 0) by lia.
    apply size_empty_inv in Hsize. apply (Hsize token) in Hin.
    by apply not_elem_of_empty in Hin.
  - cbn [get_conjuncts].
    assert (Hcs : forall c, c ∈ conjuncts d token -> c < length d)
      by (intros c Hc; by apply (Hclosed token)).
    assert (Hloop : forall cs (st : list nat * gset nat),
      (forall c, c ∈ cs -> c < length d) ->
      {[token]} ∪ visited ⊆ st.2 ->
      st.1 !! 0 = Some token ->
      exists r,
        foldl (fun acc conj =>
                 st ← acc;
                 if bool_decide (conj ∈ st.2) then Some st
                 else r ← get_conjuncts d fuel conj st.2;
                      Some (st.1 ++ r.1, r.2))
          (Some st) cs = Some r
        /\ {[token]} ∪ visited ⊆ r.2 /\ r.1 !! 0 = Some token).
    { induction cs as [|c cs IHcs]; intros st Hin Hsub Hhd; simpl.
      - exists st. done.
      - case_bool_decide as Hc.
        + apply IHcs; [|done..]. intros c' Hc'. apply Hin. by right.
        + destruct (IH c st.2) as (r & Hr & Hrsub & Hrhd).
          * apply Hin. left.
          * done.
          * assert (Hlt : size (list_to_set (indices d) ∖ st.2 : gset nat)
                          < size (list_to_set (indices d) ∖ visited : gset nat)).
            { apply subset_size. split.
              - intros x. rewrite !elem_of_difference. intros [Hx Hnx].
                split; [done|]. intros Hv. apply Hnx, Hsub.
                apply elem_of_union. by right.
              - intros Hsubset.
                assert (Htok : token ∈ (list_to_set (indices d) ∖ visited : gset nat)).
                { apply elem_of_difference. split; [|done].
                  apply elem_of_list_to_set, elem_of_indices. done. }
                apply Hsubset, elem_of_difference in Htok as [_ Htok].
                apply Htok, Hsub, elem_of_union. left. by apply elem_of_singleton. }
            lia.
          * rewrite Hr. simpl. apply IHcs.
            -- intros c' Hc'. apply Hin. by right.
            -- simpl. etrans; [exact Hsub|]. etrans; [|exact Hrsub].
               intros x Hx. apply elem_of_union. by right.
            -- simpl. destruct st.1; [done|]. done. }
    apply Hloop; [done| done | done].
Qed.

Lemma get_conjuncts_total fuel token :
  length d < fuel -> is_Some (get_conjuncts d fuel token ∅).
Proof.
  intros Hf. destruct (decide (token < length d)) as [Ht|Ht].
  - destruct (get_conjuncts_marks fuel token ∅) as (r & Hr & _); [done| |..|by rewrite Hr].
    + apply not_elem_of_empty.
    + etrans; [apply subseteq_size, subseteq_difference_l; reflexivity|].
      rewrite size_list_to_set by apply NoDup_seq.
      unfold indices. rewrite length_seq. lia.
  - destruct fuel as [|fuel]; [lia|]. cbn [get_conjuncts].
    unfold conjuncts. rewrite tok_out_of_range by lia. done.
Qed.
End ConjunctChase.

Section Termination.
Variable d : Doc.
Variable rank : nat -> nat.
Hypothesis HP : Parsed d rank.

Lemma get_compound_parts_total fuel lemmatize token :
  rank token < fuel -> is_Some (get_compound_parts d fuel lemmatize token).
Proof.
  revert token. induction fuel as [|fuel IH]; intros token Hr; [lia|].
  cbn [get_compound_parts].
  apply bind_is_Some.
  - apply mapM_total. intros child Hchild.
    apply elem_of_children_dep_in in Hchild as [Hchild _].
    apply bind_is_Some; [|done].
    apply mapM_total. intros n Hn.
    apply elem_of_children_dep in Hn as [Hn _].
    apply IH.
    pose proof (rank_child _ _ HP _ _ Hchild).
    pose proof (rank_child _ _ HP _ _ Hn). lia.
  - intros acl. apply bind_is_Some; [|done].
    apply mapM_total. intros prep Hprep.
    apply elem_of_children_dep in Hprep as [Hprep Hpd].
    pose proof (rank_child _ _ HP _ _ Hprep) as Hrp.
    apply mapM_total. intros p Hp.
    assert (Hrank_p : rank p <= rank prep).
    { apply elem_of_cons in Hp as [->|Hp]; [done|].
      apply (rank_conjunct _ _ HP prep); [rewrite Hpd; left | done]. }
    apply bind_is_Some; [|done].
    apply mapM_total. intros pobj Hpobj.
    apply elem_of_children_dep in Hpobj as [Hpobj Hpo].
    pose proof (rank_child _ _ HP _ _ Hpobj) as Hro.
    apply mapM_total. intros item Hitem.
    assert (Hrank_i : rank item <= rank pobj).
    { apply elem_of_cons in Hitem as [->|Hitem]; [done|].
      apply (rank_conjunct _ _ HP pobj); [rewrite Hpo; right; left | done]. }
    apply IH. lia.
Qed.

Lemma extract_subjects_total fuel token :
  length d < fuel -> is_Some (extract_subjects d fuel token).
Proof.
  intros Hf. unfold extract_subjects.
  assert (Hgcp : forall t, is_Some (get_compound_parts d fuel false t)).
  { intros t. apply get_compound_parts_total. pose proof (rank_bound _ _ HP t). lia. }
  apply bind_is_Some.
  - destruct (str_in _ _); [|done]. apply bind_is_Some; [apply Hgcp | done].
  - intros own. apply bind_is_Some; [|done]. apply mapM_total. intros c _. apply Hgcp.
Qed.

Lemma object_entry_total fuel token :
  length d < fuel -> is_Some (object_entry d fuel token).
Proof.
  intros Hf. unfold object_entry. apply bind_is_Some; [|done].
  apply get_compound_parts_total. pose proof (rank_bound _ _ HP token). lia.
Qed.

Lemma extract_objects_total fuel token :
  length d < fuel -> is_Some (extract_objects d fuel token).
Proof.
  intros Hf. unfold extract_objects. apply bind_is_Some.
  - destruct (_ || _); [|done].
    apply bind_is_Some; [by apply object_entry_total | done].
  - intros own. apply bind_is_Some; [|done].
    apply mapM_total. intros c _. by apply object_entry_total.
Qed.

Lemma expand_total {A B} (f : A -> option (list B)) l :
  (forall x, x ∈ l -> is_Some (f x)) ->
  is_Some (l' ← mapM f l; Some (concat l')).
Proof. intros Hf. apply bind_is_Some; [by apply mapM_total | done]. Qed.

Lemma get_verb_phrase_total `{Externals} fuel verb :
  rank verb + length d + 1 < fuel -> is_Some (get_verb_phrase d fuel verb).
Proof.
  revert verb. induction fuel as [|fuel IH]; intros verb Hr; [lia|].
  cbn [get_verb_phrase].
  assert (Hgcp : forall t, is_Some (p ← get_compound_parts d fuel true t; Some p.1)).
  { intros t. apply bind_is_Some; [|done].
    apply get_compound_parts_total. pose proof (rank_bound _ _ HP t). lia. }
  apply bind_is_Some; [apply mapM_total; intros; apply Hgcp|]. intros before.
  apply bind_is_Some; [apply mapM_total; intros; apply Hgcp|]. intros after.
  apply bind_is_Some; [|done].
  apply mapM_total. intros child Hchild.
  apply elem_of_children_dep_in in Hchild as [Hchild _].
  apply bind_is_Some; [|done]. apply IH.
  pose proof (rank_child _ _ HP _ _ Hchild). lia.
Qed.

Lemma get_verb_objects_total fuel verb :
  rank verb + length d + 1 < fuel -> is_Some (get_verb_objects d fuel verb).
Proof.
  revert verb. induction fuel as [|fuel IH]; intros verb Hr; [lia|].
  cbn [get_verb_objects].
  assert (Hf : length d < fuel) by lia.
  assert (Hproc : forall toks,
    is_Some (l ← mapM (extract_objects d fuel) toks; Some (concat l))).
  { intros toks. apply expand_total. intros. by apply extract_objects_total. }
  assert (Hrec : forall c, c ∈ children d verb -> is_Some (get_verb_objects d fuel c)).
  { intros c Hc. apply IH. pose proof (rank_child _ _ HP _ _ Hc). lia. }
  apply bind_is_Some; [apply Hproc|]. intros direct.
  apply bind_is_Some; [apply Hproc|]. intros indirect.
  apply bind_is_Some.
  { apply expand_total. intros prep _.
    apply bind_is_Some;
      [by apply get_conjuncts_total; [apply (conjuncts_in_range _ _ HP)|]|].
    intros preps.
    apply expand_total. intros p _. apply Hproc. }
  intros prepositional.
  apply bind_is_Some; [destruct (_ && _); [apply Hproc | done]|]. intros passive.
  apply bind_is_Some; [apply Hproc|]. intros adverbial.
  apply bind_is_Some.
  { apply expand_total. intros child _. apply expand_total. intros.
    by apply extract_subjects_total. }
  intros clausal.
  apply bind_is_Some.
  { apply expand_total. intros xc Hxc.
    apply elem_of_children_dep in Hxc as [Hxc _].
    apply bind_is_Some; [by apply Hrec|]. intros xo.
    destruct (nonempty xo); [done|]. apply Hproc. }
  intros open.
  destruct (nonempty _); [done|].
  apply first_nonempty_total. intros c Hc.
  apply elem_of_bfilter in Hc as [_ Hc]. by apply Hrec.
Qed.

Lemma get_verb_subjects_total fuel verb :
  (length d - rank verb) + length d + 1 < fuel ->
  is_Some (get_verb_subjects d fuel verb).
Proof.
  revert verb. induction fuel as [|fuel IH]; intros verb Hr; [lia|].
  cbn [get_verb_subjects].
  assert (Hf : length d < fuel) by lia.
  assert (Hexp : forall toks,
    is_Some (l ← mapM (extract_subjects d fuel) toks; Some (concat l))).
  { intros toks. apply expand_total. intros. by apply extract_subjects_total. }
  destruct (str_in (dep_ d verb) ["acl"; "relcl"]).
  { destruct (nonempty _); [apply Hexp|].
    apply bind_is_Some; [|done]. apply get_compound_parts_total.
    pose proof (rank_bound _ _ HP (head d verb)). lia. }
  apply bind_is_Some; [apply Hexp|]. intros direct.
  apply bind_is_Some; [apply Hexp|]. intros agents.
  apply bind_is_Some.
  { destruct (nonempty _); [done|]. apply first_nonempty_total.
    intros. by apply extract_subjects_total. }
  intros subjects.
  apply bind_is_Some.
  { destruct (negb (nonempty subjects) && String.eqb (dep_ d verb) "conj"
              && String.eqb (pos_ d (head d verb)) "VERB") eqn:Hcond; [|done].
    apply andb_true_iff in Hcond as [Hcond _].
    apply andb_true_iff in Hcond as [_ Hconj]. apply String.eqb_eq in Hconj.
    pose proof (conj_has_head _ _ HP _ Hconj) as Hhead.
    assert (Hin : verb < length d).
    { destruct (decide (verb < length d)) as [|Hge]; [done|].
      unfold dep_ in Hconj. rewrite tok_out_of_range in Hconj by lia. done. }
    assert (Hchild : verb ∈ children d (head d verb))
      by (apply elem_of_children; auto).
    pose proof (rank_child _ _ HP _ _ Hchild).
    pose proof (rank_bound _ _ HP (head d verb)).
    apply IH. lia. }
  intros subjects'.
  apply bind_is_Some; [apply Hexp | done].
Qed.

(** With a recursion bound of twice the document length plus two, the
    extraction of a well-formed parse returns a table. *)
Lemma svo_of_total `{Externals} fuel verb :
  2 * length d + 1 < fuel -> is_Some (svo_of d fuel verb).
Proof.
  intros Hf. unfold svo_of. pose proof (rank_bound _ _ HP verb).
  apply bind_is_Some; [apply get_verb_subjects_total; lia|]. intros subjects.
  apply bind_is_Some; [apply get_verb_objects_total; lia|]. intros objects.
  apply bind_is_Some; [apply get_verb_phrase_total; lia | done].
Qed.

Lemma extract_svos_total `{Externals} fuel :
  2 * length d + 1 < fuel -> is_Some (extract_svos fuel d).
Proof.
  intros Hf. unfold extract_svos, svo_triples.
  apply bind_is_Some; [|done]. apply mapM_total. intros. by apply svo_of_total.
Qed.
End Termination.

(** The check on a table of ranks establishes well-formedness. *)
Lemma forallb_elem {A} (f : A -> bool) l x :
  forallb f l = true -> x ∈ l -> f x = true.
Proof.
  rewrite forallb_forall. intros Hf Hx. apply Hf. by apply list_elem_of_In.
Qed.

Lemma parsed_b_sound d ranks : parsed_b d ranks = true -> Parsed d (rank_of ranks).
Proof.
  unfold parsed_b. rewrite !andb_true_iff.
  intros [[[[Hbound Hchild] Hconj] Hroot] Hrange].
  assert (Hblank : forall i, ~ i < length d -> tok d i = blank_token)
    by (intros i Hi; apply tok_out_of_range; lia).
  split.
  - intros i. unfold rank_of.
    destruct (decide (i < length ranks)) as [Hi|Hi].
    + apply Nat.leb_le. apply (forallb_elem _ _ _ Hbound).
      apply list_elem_of_In, nth_In. done.
    + rewrite nth_overflow by lia. lia.
  - intros i j Hj. apply elem_of_children in Hj as (Hlt & Hhead & Hne).
    pose proof (forallb_elem _ _ j Hchild) as Hc. simpl in Hc.
    rewrite Hhead in Hc.
    destruct (Nat.eqb_spec i j) as [->|_]; [done|].
    apply Nat.ltb_lt, Hc. by apply elem_of_indices.
  - intros i c Hdep Hc.
    destruct (decide (i < length d)) as [Hi|Hi].
    + pose proof (forallb_elem _ _ i Hconj) as Hf. cbv beta in Hf.
      apply str_in_spec in Hdep. rewrite Hdep in Hf. simpl in Hf.
      apply Nat.leb_le. apply (forallb_elem _ _ c (Hf ltac:(by apply elem_of_indices))).
      done.
    + unfold dep_ in Hdep. rewrite (Hblank i Hi) in Hdep. simpl in Hdep.
      rewrite !elem_of_cons, elem_of_nil in Hdep.
      destruct Hdep as [?|[?|[]]]; discriminate.
  - intros i Hdep.
    destruct (decide (i < length d)) as [Hi|Hi].
    + pose proof (forallb_elem _ _ i Hroot) as Hf. cbv beta in Hf.
      rewrite Hdep in Hf. simpl in Hf.
      apply Nat.eqb_neq, negb_true_iff, Hf. by apply elem_of_indices.
    + unfold dep_ in Hdep. rewrite (Hblank i Hi) in Hdep. discriminate.
  - intros i c Hc.
    destruct (decide (i < length d)) as [Hi|Hi].
    + pose proof (forallb_elem _ _ i Hrange) as Hf. cbv beta in Hf.
      apply Nat.ltb_lt. apply (forallb_elem _ _ c (Hf ltac:(by apply elem_of_indices))).
      done.
    + unfold conjuncts in Hc. rewrite (Hblank i Hi) in Hc. simpl in Hc.
      by apply elem_of_nil in Hc.
Qed.

(** ** Traversals along conjunct and head links (C10) *)

Lemma ancestors_of_root d verb : head d verb = verb -> ancestors d verb = [].
Proof.
  intros Hh. unfold ancestors. destruct (length d); simpl; [done|].
  by rewrite Hh, Nat.eqb_refl.
Qed.

(** The subject inheritance has no visited set: a childless verb labelled
    [conj] that is its own head sends the resolver back to itself. *)
Lemma get_verb_subjects_self_conj d verb :
  children d verb = [] -> head d verb = verb ->
  dep_ d verb = "conj" -> pos_ d verb = "VERB" ->
  forall fuel, get_verb_subjects d fuel verb = None.
Proof.
  intros Hch Hh Hdep Hpos fuel. induction fuel as [|fuel IH]; [done|].
  cbn [get_verb_subjects].
  unfold children_dep_in, children_dep, agent_pobjs, ancestor_subjects, conj_nouns,
    children_dep.
  rewrite Hch, (ancestors_of_root _ _ Hh), Hh, Hdep, Hpos. simpl.
  rewrite IH. done.
Qed.

(** C10, as the code has it. The conjunct chase of [get_conjuncts], which
    carries the visited set, returns on every document whose side-links stay
    inside it, cycles among them included; the subject inheritance of
    [get_verb_subjects], which carries none, returns on every well-formed
    parse, where the head links it follows form a forest. *)
Theorem conjunct_traversals_terminate (d : Doc) :
  conjuncts_closed d ->
  (forall fuel token, length d < fuel -> is_Some (get_conjuncts d fuel token ∅))
  /\ (forall rank, Parsed d rank ->
      forall fuel verb, 2 * length d + 1 < fuel ->
                        is_Some (get_verb_subjects d fuel verb)).
Proof.
  intros Hclosed. split.
  - intros fuel token Hf. by apply get_conjuncts_total.
  - intros rank HP fuel verb Hf. apply (get_verb_subjects_total d rank HP). lia.
Qed.

Lemma conjunct_traversals_terminate_witness :
  conjuncts_closed Sample.mutual_conjuncts
  /\ 2 ∈ conjuncts Sample.mutual_conjuncts 1
  /\ 1 ∈ conjuncts Sample.mutual_conjuncts 2
  /\ is_Some (get_conjuncts Sample.mutual_conjuncts 4 1 ∅).
Proof.
  assert (Hclosed : conjuncts_closed Sample.mutual_conjuncts).
  { apply (conjuncts_in_range _ (rank_of [2; 1; 0])), parsed_b_sound. reflexivity. }
  split; [exact Hclosed|].
  split; [left|]. split; [left|].
  apply (proj1 (conjunct_traversals_terminate Sample.mutual_conjuncts Hclosed)).
  simpl. lia.
Defined.

(** C10, as stated, fails: on the one-token document whose verb is labelled
    [conj] and is its own head, the subject inheritance exceeds every bound
    on the recursion depth. *)
Lemma subject_inheritance_counterexample :
  conjuncts_closed Sample.lone_conj
  /\ ~ exists fuel, is_Some (get_verb_subjects Sample.lone_conj fuel 0).
Proof.
  split.
  - intros i c Hc. destruct i as [|i]; simpl in Hc; by apply elem_of_nil in Hc.
  - intros [fuel [r Hr]].
    rewrite get_verb_subjects_self_conj in Hr by reflexivity. discriminate.
Qed.

(** ** Passive clauses (C7) *)

Lemma mapM_concat_elem {A B} (f : A -> option (list B)) l r x :
  mapM f l = Some r -> x ∈ l -> exists e, f x = Some e /\ e ⊆ concat r.
Proof.
  intros Hm Hx. apply mapM_Some_1 in Hm.
  induction Hm as [|y e l r Hy Hm IH]; [by apply elem_of_nil in Hx|].
  apply elem_of_cons in Hx as [->|Hx].
  - exists e. split; [done|]. simpl. intros z Hz. apply elem_of_app. by left.
  - destruct (IH Hx) as (e' & He' & Hsub). exists e'. split; [done|].
    simpl. intros z Hz. apply elem_of_app. right. by apply Hsub.
Qed.

Lemma expand_elem {A B} (f : A -> option (list B)) l out x :
  (r ← mapM f l; Some (concat r)) = Some out -> x ∈ l ->
  exists e, f x = Some e /\ e ⊆ out.
Proof.
  intros Hb Hx. apply bind_Some in Hb as (r & Hr & Hout). injection Hout as <-.
  by apply (mapM_concat_elem f l).
Qed.

(** Entries found stay in the list while later rules only replace an empty
    list or append to it. *)
Lemma kept_if_nonempty {A} (e s s' : list A) :
  e ⊆ s -> (nonempty s = true -> s' = s) -> e ⊆ s'.
Proof.
  intros Hsub Hkeep. destruct s as [|x s].
  - intros z Hz. apply Hsub in Hz. by apply elem_of_nil in Hz.
  - by rewrite (Hkeep eq_refl).
Qed.

Lemma subseteq_app_l' {A} (e s t : list A) : e ⊆ s -> e ⊆ s ++ t.
Proof. intros Hsub z Hz. apply elem_of_app. left. by apply Hsub. Qed.

Lemma subseteq_app_r' {A} (e s t : list A) : e ⊆ t -> e ⊆ s ++ t.
Proof. intros Hsub z Hz. apply elem_of_app. right. by apply Hsub. Qed.


(** ** Surface forms and lemmas (C5) *)

Lemma mapM_elem {A B} (f : A -> option B) l r y :
  mapM f l = Some r -> y ∈ r -> exists x, x ∈ l /\ f x = Some y.
Proof.
  intros Hm Hy. apply mapM_Some_1 in Hm.
  induction Hm as [|x z l r Hx Hm IH]; [by apply elem_of_nil in Hy|].
  apply elem_of_cons in Hy as [->|Hy].
  - exists x. split; [left | done].
  - destruct (IH Hy) as (x' & Hx' & Hf). exists x'. split; [by right | done].
Qed.

(** A token without children is assembled to its own word. *)
Lemma get_compound_parts_leaf d fuel lemmatize token :
  children d token = [] ->
  get_compound_parts d (S fuel) lemmatize token = Some (word d lemmatize token, []).
Proof.
  intros Hch. cbn [get_compound_parts].
  unfold children_dep_in, children_dep, dets, collect_modifiers.
  rewrite Hch. reflexivity.
Qed.

(** ** The synonym pass (C4) *)

Lemma are_synonyms_sym `{Externals} a b : are_synonyms a b = are_synonyms b a.
Proof.
  unfold are_synonyms. apply eq_true_iff_eq.
  rewrite !existsb_exists. split.
  - intros (s1 & Hs1 & Hin). apply existsb_exists in Hin as (s2 & Hs2 & Hok).
    exists s2. split; [done|]. apply existsb_exists. exists s1. split; [done|].
    apply orb_true_iff in Hok as [Hok|Hok]; apply orb_true_iff.
    + left. by rewrite String.eqb_sym.
    + right. apply existsb_exists in Hok as (n & Hn & Hm).
      apply str_in_spec, list_elem_of_In in Hm.
      apply existsb_exists. exists n. split; [done|].
      by apply str_in_spec, list_elem_of_In.
  - intros (s2 & Hs2 & Hin). apply existsb_exists in Hin as (s1 & Hs1 & Hok).
    exists s1. split; [done|]. apply existsb_exists. exists s2. split; [done|].
    apply orb_true_iff in Hok as [Hok|Hok]; apply orb_true_iff.
    + left. by rewrite String.eqb_sym.
    + right. apply existsb_exists in Hok as (n & Hn & Hm).
      apply str_in_spec, list_elem_of_In in Hm.
      apply existsb_exists. exists n. split; [done|].
      by apply str_in_spec, list_elem_of_In.
Qed.

Lemma occ_not_in c l : c ∉ l -> occ c l = 0.
Proof.
  intros Hc. unfold occ. rewrite filter_none; [done|].
  intros y Hy. apply String.eqb_neq. intros ->. done.
Qed.

Lemma occ_NoDup c l : NoDup l -> c ∈ l -> occ c l = 1.
Proof.
  induction 1 as [|x l Hx Hnd IH]; intros Hc; [by apply elem_of_nil in Hc|].
  unfold occ. simpl. destruct (String.eqb_spec x c) as [->|Hne].
  - simpl. fold (occ c l). by rewrite occ_not_in.
  - apply elem_of_cons in Hc as [->|Hc]; [done|]. by apply IH.
Qed.

Lemma combinations2_elem {A} (l : list A) p :
  p ∈ combinations2 l -> p.1 ∈ l /\ p.2 ∈ l.
Proof.
  induction l as [|x l IH]; simpl; intros Hp; [by apply elem_of_nil in Hp|].
  apply elem_of_app in Hp as [Hp|Hp].
  - apply list_elem_of_In, in_map_iff in Hp as (y & <- & Hy). simpl.
    split; [left | right; by apply list_elem_of_In].
  - destruct (IH Hp). split; by right.
Qed.

Lemma pair_is_spec a b p :
  pair_is a b p = true <-> (p.1 = a /\ p.2 = b) \/ (p.1 = b /\ p.2 = a).
Proof.
  unfold pair_is. by rewrite orb_true_iff, !andb_true_iff, !String.eqb_eq.
Qed.

Lemma pairs_from a b x l :
  a <> b ->
  length (List.filter (pair_is a b) (map (pair x) l))
  = (if String.eqb x a then occ b l else 0) + (if String.eqb x b then occ a l else 0).
Proof.
  intros Hab. unfold occ, pair_is.
  induction l as [|y l IH]; simpl; [by repeat destruct (String.eqb _ _)|].
  destruct (String.eqb x a) eqn:E1, (String.eqb x b) eqn:E2; simpl in *.
  - apply String.eqb_eq in E1, E2. congruence.
  - rewrite orb_false_r. destruct (String.eqb y b); simpl; lia.
  - destruct (String.eqb y a); simpl; lia.
  - done.
Qed.

Lemma pairs_absent a b l :
  a ∉ l \/ b ∉ l -> List.filter (pair_is a b) (combinations2 l) = [].
Proof.
  intros Hab. apply filter_none. intros p Hp.
  apply combinations2_elem in Hp as [H1 H2].
  destruct (pair_is a b p) eqn:Hp; [|done].
  apply pair_is_spec in Hp as [[<- <-]|[<- <-]]; destruct Hab; done.
Qed.

(** Among the pairs of a duplicate-free list, two distinct members make up
    exactly one. *)
Lemma pairs_once a b l :
  NoDup l -> a <> b -> a ∈ l -> b ∈ l ->
  length (List.filter (pair_is a b) (combinations2 l)) = 1.
Proof.
  induction 1 as [|x l Hx Hnd IH]; intros Hab Ha Hb; [by apply elem_of_nil in Ha|].
  simpl. rewrite List.filter_app, length_app, pairs_from by done.
  apply elem_of_cons in Ha as [Ha|Ha]; apply elem_of_cons in Hb as [Hb|Hb];
    try congruence.
  - subst a. rewrite String.eqb_refl, (proj2 (String.eqb_neq x b)) by done.
    rewrite pairs_absent by (by left). rewrite occ_NoDup by done. done.
  - subst b. rewrite String.eqb_refl, (proj2 (String.eqb_neq x a)) by done.
    rewrite pairs_absent by (by right). rewrite occ_NoDup by done. done.
  - assert (x <> a) by (intros ->; done). assert (x <> b) by (intros ->; done).
    rewrite !(proj2 (String.eqb_neq x _)) by done. by rewrite IH.
Qed.

Section SynonymPass.
Context `{Externals}.

Lemma svo_rows_syntactic svo :
  Forall (fun r => Semantic_Syntactic r = 0) (svo_rows svo).
Proof.
  destruct svo as [[subjects verbs] objects].
  unfold svo_rows, who_did_rows, did_what_rows, who_who_rows, what_what_rows.
  repeat apply Forall_app_2.
  - apply Forall_flat_map_intro. intros s _. by apply Forall_map_intro.
  - apply Forall_flat_map_intro. intros v _. by apply Forall_map_intro.
  - destruct (Nat.ltb 1 (length subjects)); [|constructor]. by apply Forall_map_intro.
  - destruct (Nat.ltb 1 (length objects)); [|constructor]. by apply Forall_map_intro.
Qed.

Lemma syntactic_rows_syntactic svos :
  Forall (fun r => Semantic_Syntactic r = 0) (syntactic_rows svos).
Proof.
  unfold syntactic_rows. apply Forall_flat_map_intro. intros svo _.
  apply svo_rows_syntactic.
Qed.

Lemma links_syntactic role a b svos :
  List.filter (links role a b) (syntactic_rows svos) = [].
Proof.
  apply filter_none. intros r Hr.
  pose proof (syntactic_rows_syntactic svos) as Hall.
  rewrite Forall_forall in Hall. unfold links. by rewrite (Hall r Hr).
Qed.

Lemma links_other_role role role' a b nodes :
  role <> role' -> List.filter (links role a b) (synonym_rows role' nodes) = [].
Proof.
  intros Hne. apply filter_none. intros r Hr.
  pose proof (synonym_rows_role role' nodes) as Hall.
  rewrite Forall_forall in Hall. destruct (Hall r Hr) as (H1 & H2 & _).
  unfold links, has_roles. rewrite H1.
  rewrite (proj2 (String.eqb_neq role' role)) by congruence.
  by rewrite !andb_false_r.
Qed.

Lemma links_synonym_rows role a b nodes :
  are_synonyms a b = true ->
  length (List.filter (links role a b) (synonym_rows role nodes))
  = length (List.filter (pair_is a b) (combinations2 nodes)).
Proof.
  intros Hsyn. unfold synonym_rows.
  induction (combinations2 nodes) as [|p c IH]; [done|]. simpl.
  destruct (pair_is a b p) eqn:Hp.
  - assert (Hs : are_synonyms p.1 p.2 = true).
    { apply pair_is_spec in Hp as [[-> ->]|[-> ->]]; [done|].
      by rewrite are_synonyms_sym. }
    rewrite Hs. simpl. unfold links at 1, has_roles. simpl.
    rewrite String.eqb_refl. simpl.
    destruct p as [p1 p2]. simpl in *. rewrite Hp. simpl. by rewrite IH.
  - destruct (are_synonyms p.1 p.2); [|done]. simpl.
    unfold links at 1. destruct p as [p1 p2]. simpl in *. rewrite Hp.
    by rewrite !andb_false_r.
Qed.

Lemma links_semantic_rows nodes_who nodes_what a b :
  are_synonyms a b = true ->
  length (List.filter (links "Who" a b)
            (synonym_rows "Who" nodes_who ++ synonym_rows "What" nodes_what))
  = length (List.filter (pair_is a b) (combinations2 nodes_who))
  /\ length (List.filter (links "What" a b)
               (synonym_rows "Who" nodes_who ++ synonym_rows "What" nodes_what))
     = length (List.filter (pair_is a b) (combinations2 nodes_what)).
Proof.
  intros Hsyn. rewrite !List.filter_app, !length_app.
  rewrite (links_other_role "Who" "What"), (links_other_role "What" "Who") by done.
  rewrite !links_synonym_rows by done. simpl. split; lia.
Qed.
End SynonymPass.

(** ** Relative and adnominal clauses (C8) *)



(** The sample sentences are well-formed parses. *)
Lemma cake_that_was_eaten_parsed :
  Parsed Sample.cake_that_was_eaten (rank_of [0; 3; 0; 0; 2; 1; 0; 4; 0]).
Proof. apply parsed_b_sound. reflexivity. Qed.

Lemma alice_and_bob_eat_parsed :
  Parsed Sample.alice_and_bob_eat (rank_of [1; 0; 0; 4; 3; 2; 0; 0]).
Proof. apply parsed_b_sound. reflexivity. Qed.

(** ** The documented examples

    The sentences of the specification's test list, run through the model
    with "be" on the auxiliary stop-list. *)

Example coordination_rows :
  df_rows <$> @extract_svos Sample.plain 4 Sample.alice_and_bob_left
  = Some [ mk_row "Alice" "Who" "leave" "Did"
             "[[('Alice', []), ('Bob', [])], ['leave'], []]" 0;
           mk_row "Bob" "Who" "leave" "Did"
             "[[('Alice', []), ('Bob', [])], ['leave'], []]" 0;
           mk_row "Alice" "Who" "Bob" "Who"
             "[[('Alice', []), ('Bob', [])], ['leave'], []]" 0 ].
Proof. vm_compute. reflexivity. Qed.

Example passive_rows :
  df_rows <$> @extract_svos (Sample.externals ["be"] []) 4 Sample.cake_was_eaten
  = Some [ mk_row "Alice" "Who" "eat" "Did"
             "[[('Alice', [])], ['eat'], [('cake', [])]]" 0;
           mk_row "eat" "Did" "cake" "What"
             "[[('Alice', [])], ['eat'], [('cake', [])]]" 0 ].
Proof. vm_compute. reflexivity. Qed.

Example imperative_rows :
  df_rows <$> @extract_svos Sample.plain 4 Sample.close_the_door
  = Some [ mk_row "you" "Who" "close" "Did"
             "[[('you', [])], ['close'], [('door', [])]]" 0;
           mk_row "close" "Did" "door" "What"
             "[[('you', [])], ['close'], [('door', [])]]" 0 ].
Proof. vm_compute. reflexivity. Qed.

Example extraction_returns `{Externals} :
  is_Some (extract_svos 18 Sample.alice_and_bob_eat).
Proof.
  apply (extract_svos_total _ _ alice_and_bob_eat_parsed). simpl. lia.
Qed.

(** The Phrase Assembler follows conjunct links without a visited set as
    well: a side-link back to the token being assembled is followed for
    ever. *)
Lemma get_compound_parts_conjunct_cycle lemmatize fuel :
  get_compound_parts Sample.pobj_cycle fuel lemmatize 0 = None.
Proof.
  induction fuel as [|fuel IH]; [done|].
  cbn [get_compound_parts].
  change (children_dep_in Sample.pobj_cycle ["acl"; "relcl"] 0) with (@nil nat).
  change (children_dep Sample.pobj_cycle "prep" 0) with [1].
  cbn [mapM mbind option_bind mret option_ret].
  change (conjuncts Sample.pobj_cycle 1) with (@nil nat).
  change (children_dep Sample.pobj_cycle "pobj" 1) with [2].
  cbn [mapM mbind option_bind mret option_ret].
  change (conjuncts Sample.pobj_cycle 2) with [0].
  cbn [mapM mbind option_bind mret option_ret].
  rewrite IH. by destruct (get_compound_parts _ fuel lemmatize 2).
Qed.

(** * Further properties of the traversal *)

(** ** What the conjunct chase returns *)

Section ChaseResult.
Variable d : Doc.

Lemma get_conjuncts_unfold fuel token visited :
  get_conjuncts d (S fuel) token visited
  = foldl (chase_step d fuel) (Some ([token], {[token]} ∪ visited))
      (conjuncts d token).
Proof. reflexivity. Qed.

Lemma chase_step_None fuel cs : foldl (chase_step d fuel) None cs = None.
Proof. induction cs as [|c cs IH]; [done|]. simpl. exact IH. Qed.

(** What holds of the list and the set a call hands back, relative to the
    set it was given. *)
Record chased (token : nat) (visited : gset nat) (r : list nat * gset nat)
  : Prop := {
  chased_set : r.2 = visited ∪ list_to_set r.1;
  chased_NoDup : NoDup r.1;
  chased_fresh : forall x, x ∈ r.1 -> x ∉ visited;
  chased_first : r.1 !! 0 = Some token;
  chased_reach : forall x, x ∈ r.1 -> rtc (conj_link d) token x
}.

Lemma get_conjuncts_chased fuel token visited r :
  token ∉ visited ->
  get_conjuncts d fuel token visited = Some r ->
  chased token visited r
  /\ (forall x c, x ∈ r.1 -> c ∈ conjuncts d x -> c ∈ r.2).
Proof.
  revert token visited r.
  induction fuel as [|fuel IH]; intros token visited r Hfresh Hr; [done|].
  rewrite get_conjuncts_unfold in Hr.
  assert (Hloop : forall cs st r,
    (forall c, c ∈ cs -> c ∈ conjuncts d token) ->
    chased token visited st ->
    (forall x c, x ∈ st.1 -> x <> token -> c ∈ conjuncts d x -> c ∈ st.2) ->
    foldl (chase_step d fuel) (Some st) cs = Some r ->
    chased token visited r
    /\ (forall x c, x ∈ r.1 -> x <> token -> c ∈ conjuncts d x -> c ∈ r.2)
    /\ st.2 ⊆ r.2
    /\ (forall c, c ∈ cs -> c ∈ r.2)).
  { clear Hr r. induction cs as [|c cs IHcs]; intros st r Hcs Hst Hclosed Hr.
    - simpl in Hr. injection Hr as <-.
      split; [done|]. split; [done|]. split; [done|].
      intros c Hc. by apply elem_of_nil in Hc.
    - cbn [foldl] in Hr.
      assert (Hstep : chase_step d fuel (Some st) c
                = if bool_decide (c ∈ st.2) then Some st
                  else r ← get_conjuncts d fuel c st.2; Some (st.1 ++ r.1, r.2))
        by reflexivity.
      rewrite Hstep in Hr. clear Hstep.
      case_bool_decide as Hc.
      + destruct (IHcs st r) as (Hch & Hcl & Hsub & Hdone); [|done..|].
        { intros c' Hc'. apply Hcs. by right. }
        split; [done|]. split; [done|]. split; [done|].
        intros c' Hc'. apply elem_of_cons in Hc' as [->|Hc']; [by apply Hsub|].
        by apply Hdone.
      + destruct (get_conjuncts d fuel c st.2) as [r'|] eqn:Hr'; simpl in Hr;
          [|by rewrite chase_step_None in Hr].
        destruct (IH c st.2 r' Hc Hr') as [Hch' Hcl'].
        destruct Hst as [Hset Hnd Hfr Hfirst Hreach].
        destruct Hch' as [Hset' Hnd' Hfr' Hfirst' Hreach'].
        destruct (IHcs (st.1 ++ r'.1, r'.2) r) as (Hch & Hcl & Hsub & Hdone);
          [| | |done|].
        * intros c' Hc'. apply Hcs. by right.
        * split; simpl.
          -- rewrite Hset', Hset, list_to_set_app_L. set_solver.
          -- apply NoDup_app. split; [done|]. split; [|done].
             intros x Hx Hx'. apply (Hfr' x Hx'). rewrite Hset.
             apply elem_of_union. right. by apply elem_of_list_to_set.
          -- intros x Hx. apply elem_of_app in Hx as [Hx|Hx]; [by apply Hfr|].
             intros Hv. apply (Hfr' x Hx). rewrite Hset.
             apply elem_of_union. by left.
          -- destruct st.1; [done|]. done.
          -- intros x Hx. apply elem_of_app in Hx as [Hx|Hx]; [by apply Hreach|].
             eapply rtc_l; [|by apply Hreach']. apply Hcs. left.
        * simpl. intros x c' Hx Hne Hc'.
          apply elem_of_app in Hx as [Hx|Hx]; [|by apply (Hcl' x)].
          rewrite Hset'. apply elem_of_union. left. by apply (Hclosed x).
        * split; [done|]. split; [done|].
          simpl in Hsub. split.
          -- etrans; [|exact Hsub]. rewrite Hset'. set_solver.
          -- intros c' Hc'. apply elem_of_cons in Hc' as [->|Hc']; [|by apply Hdone].
             apply Hsub. rewrite Hset'. apply elem_of_union. right.
             apply elem_of_list_to_set. apply list_elem_of_lookup. by exists 0. }
  destruct (Hloop (conjuncts d token) ([token], {[token]} ∪ visited) r)
    as (Hch & Hcl & _ & Hdone); [done| | |done|].
  - split; simpl.
    + set_solver.
    + apply NoDup_singleton.
    + intros x Hx. apply list_elem_of_singleton in Hx. by subst.
    + done.
    + intros x Hx. apply list_elem_of_singleton in Hx. subst. apply rtc_refl.
  - simpl. intros x c Hx Hne. apply list_elem_of_singleton in Hx. done.
  - split; [done|]. intros x c Hx Hc.
    destruct (decide (x = token)) as [->|Hne]; [by apply Hdone | by apply (Hcl x)].
Qed.
End ChaseResult.

(** X1. Started with an empty visited set on a document whose side-links stay
    inside it, [get_conjuncts] returns, token first and each token once, the
    tokens that can be reached from the token through conjunct links. *)
Theorem get_conjuncts_reachable (d : Doc) (fuel token : nat) :
  conjuncts_closed d -> length d < fuel ->
  exists r,
    get_conjuncts d fuel token ∅ = Some r
    /\ r.1 !! 0 = Some token
    /\ NoDup r.1
    /\ (forall x, x ∈ r.1 <-> rtc (conj_link d) token x).
Proof.
  intros Hclosed Hf.
  destruct (get_conjuncts_total d Hclosed fuel token Hf) as [r Hr].
  exists r. split; [done|].
  destruct (get_conjuncts_chased d fuel token ∅ r) as [[Hset Hnd _ Hfirst Hreach] Hcl];
    [apply not_elem_of_empty | done |].
  split; [done|]. split; [done|].
  intros x. split; [apply Hreach|].
  assert (Hin : token ∈ r.1) by (apply list_elem_of_lookup; by exists 0).
  assert (Hstable : forall y z, rtc (conj_link d) y z -> y ∈ r.1 -> z ∈ r.1).
  { clear Hin Hfirst Hreach Hr. intros a b Hpath.
    induction Hpath as [y|y z w Hyz _ IHp]; intros Hy; [done|].
    apply IHp. pose proof (Hcl y z Hy Hyz) as Hz.
    rewrite Hset in Hz. apply elem_of_union in Hz as [Hz|Hz].
    - by apply not_elem_of_empty in Hz.
    - by apply elem_of_list_to_set in Hz. }
  intros Hpath. by apply (Hstable token x).
Qed.

Lemma get_conjuncts_reachable_witness :
  exists r,
    get_conjuncts Sample.mutual_conjuncts 4 1 ∅ = Some r
    /\ r.1 !! 0 = Some 1
    /\ NoDup r.1
    /\ (forall x, x ∈ r.1 <-> rtc (conj_link Sample.mutual_conjuncts) 1 x).
Proof.
  apply (get_conjuncts_reachable Sample.mutual_conjuncts 4 1).
  - apply (conjuncts_in_range _ (rank_of [2; 1; 0])), parsed_b_sound. reflexivity.
  - simpl. lia.
Defined.

(** ** The rows of the table, one by one *)

Lemma elem_of_flat_map_iff {A B} (f : A -> list B) l y :
  y ∈ flat_map f l <-> exists x, x ∈ l /\ y ∈ f x.
Proof.
  rewrite list_elem_of_In, in_flat_map. split.
  - intros (x & Hx & Hy). exists x. by rewrite !list_elem_of_In.
  - intros (x & Hx & Hy). exists x. by rewrite <- !list_elem_of_In.
Qed.

Lemma elem_of_map_iff {A B} (f : A -> B) l y :
  y ∈ map f l <-> exists x, x ∈ l /\ y = f x.
Proof.
  rewrite list_elem_of_In, in_map_iff. split.
  - intros (x & Hx & Hy). exists x. by rewrite list_elem_of_In.
  - intros (x & Hx & Hy). exists x. by rewrite <- list_elem_of_In.
Qed.

Lemma combinations2_short {A} (l : list A) :
  Nat.ltb 1 (length l) = false -> combinations2 l = [].
Proof.
  intros Hl. apply Nat.ltb_ge in Hl.
  destruct l as [|x [|y l]]; simpl in *; [done | done | lia].
Qed.

Lemma combinations2_distinct (l : list string) p :
  NoDup l -> p ∈ combinations2 l -> p.1 <> p.2.
Proof.
  induction 1 as [|x l Hx Hnd IH]; simpl; intros Hp; [by apply elem_of_nil in Hp|].
  apply elem_of_app in Hp as [Hp|Hp]; [|by apply IH].
  apply elem_of_map_iff in Hp as (y & Hy & ->). simpl. by intros ->.
Qed.

Lemma length_combinations2 {A} (l : list A) :
  2 * length (combinations2 l) = length l * (length l - 1).
Proof.
  induction l as [|x l IH]; [done|].
  cbn [combinations2]. rewrite length_app, length_map. simpl length.
  replace (S (length l) - 1) with (length l) by lia.
  destruct (length l) as [|n] eqn:Hn; [lia|].
  replace (S n - 1) with n in IH by lia. nia.
Qed.

Section RowMembership.
Context `{Externals}.

Lemma elem_of_svo_rows subjects verbs objects r :
  r ∈ svo_rows (subjects, verbs, objects) <->
  (exists p v, p ∈ subjects /\ v ∈ verbs
     /\ r = mk_row p.1 "Who" v "Did" (py_str (subjects, verbs, objects)) 0)
  \/ (exists v p, v ∈ verbs /\ p ∈ objects
        /\ r = mk_row v "Did" p.1 "What" (py_str (subjects, verbs, objects)) 0)
  \/ (exists pq, pq ∈ combinations2 subjects
        /\ r = mk_row pq.1.1 "Who" pq.2.1 "Who" (py_str (subjects, verbs, objects)) 0)
  \/ (exists pq, pq ∈ combinations2 objects
        /\ r = mk_row pq.1.1 "What" pq.2.1 "What"
                 (py_str (subjects, verbs, objects)) 0).
Proof.
  unfold svo_rows, who_did_rows, did_what_rows, who_who_rows, what_what_rows.
  rewrite !elem_of_app, !elem_of_flat_map_iff.
  assert (Hww : forall (l : list Phrase) (role : string),
    r ∈ (if Nat.ltb 1 (length l)
         then map (fun p => mk_row p.1.1 role p.2.1 role
                              (py_str (subjects, verbs, objects)) 0)
                (combinations2 l)
         else [])
    <-> exists pq, pq ∈ combinations2 l
          /\ r = mk_row pq.1.1 role pq.2.1 role (py_str (subjects, verbs, objects)) 0).
  { intros l role. destruct (Nat.ltb 1 (length l)) eqn:Hl.
    - apply elem_of_map_iff.
    - rewrite (combinations2_short l Hl). split.
      + intros Hr. by apply elem_of_nil in Hr.
      + intros (pq & Hpq & _). by apply elem_of_nil in Hpq. }
  rewrite !Hww. clear Hww.
  split.
  - intros [(p & Hp & Hr)|[(v & Hv & Hr)|[Hr|Hr]]].
    + apply elem_of_map_iff in Hr as (v & Hv & ->). left. by exists p, v.
    + apply elem_of_map_iff in Hr as (p & Hp & ->). right; left. by exists v, p.
    + right; right; by left.
    + right; right; by right.
  - intros [(p & v & Hp & Hv & ->)|[(v & p & Hv & Hp & ->)|[Hr|Hr]]].
    + left. exists p. split; [done|]. apply elem_of_map_iff. by exists v.
    + right; left. exists v. split; [done|]. apply elem_of_map_iff. by exists p.
    + right; right; by left.
    + right; right; by right.
Qed.

Lemma elem_of_synonym_rows role nodes r :
  r ∈ synonym_rows role nodes <->
  exists p, p ∈ combinations2 nodes /\ are_synonyms p.1 p.2 = true
            /\ r = mk_row p.1 role p.2 role "N/A" 1.
Proof.
  unfold synonym_rows. rewrite elem_of_map_iff. split.
  - intros (p & Hp & ->). apply elem_of_bfilter in Hp as [Hs Hp]. by exists p.
  - intros (p & Hp & Hs & ->). exists p. split; [|done]. by apply elem_of_bfilter.
Qed.
End RowMembership.

(** X3. A row of semantic provenance in a returned table links two different
    strings that [are_synonyms] accepts, has trace "N/A", and is either a
    Who-Who row between two subject strings of the document or a What-What
    row between two object strings. *)
Theorem semantic_rows_sound `{Externals} (fuel : nat) (doc : Doc)
    (svos : list SVO) (df : DataFrame) (r : Row) :
  svo_triples doc fuel = Some svos ->
  extract_svos fuel doc = Some df ->
  r ∈ df_rows df ->
  Semantic_Syntactic r = 1 ->
  Node_1 r <> Node_2 r
  /\ are_synonyms (Node_1 r) (Node_2 r) = true
  /\ Hypergraph r = "N/A"
  /\ ((WDW r = "Who" /\ WDW2 r = "Who"
       /\ Node_1 r ∈ all_subjects svos /\ Node_2 r ∈ all_subjects svos)
      \/ (WDW r = "What" /\ WDW2 r = "What"
          /\ Node_1 r ∈ all_objects svos /\ Node_2 r ∈ all_objects svos)).
Proof.
  intros Hsvos Hdf Hr Hkind. unfold extract_svos in Hdf. rewrite Hsvos in Hdf.
  injection Hdf as <-. simpl in Hr.
  apply elem_of_app in Hr as [Hr|Hr].
  { pose proof (syntactic_rows_syntactic svos) as Hall.
    rewrite Forall_forall in Hall. rewrite (Hall r Hr) in Hkind. discriminate. }
  assert (Hrole : forall (role : string) (nodes strings : list string),
    (forall x, x ∈ nodes <-> x ∈ strings) -> NoDup nodes ->
    r ∈ synonym_rows role nodes ->
    Node_1 r <> Node_2 r /\ are_synonyms (Node_1 r) (Node_2 r) = true
    /\ Hypergraph r = "N/A" /\ WDW r = role /\ WDW2 r = role
    /\ Node_1 r ∈ strings /\ Node_2 r ∈ strings).
  { intros role nodes strings Hel Hnd Hin.
    apply elem_of_synonym_rows in Hin as (p & Hp & Hs & ->). simpl.
    destruct (combinations2_elem nodes p Hp) as [H1 H2].
    split; [by apply (combinations2_distinct nodes)|].
    do 4 (split; [done|]). split; by apply Hel. }
  unfold semantic_rows in Hr. apply elem_of_app in Hr as [Hr|Hr].
  - destruct (Hrole "Who" _ (all_subjects svos) (list_of_set_elem _)
                (list_of_set_NoDup _) Hr) as (? & ? & ? & ? & ? & ? & ?).
    do 3 (split; [done|]). by left.
  - destruct (Hrole "What" _ (all_objects svos) (list_of_set_elem _)
                (list_of_set_NoDup _) Hr) as (? & ? & ? & ? & ? & ? & ?).
    do 3 (split; [done|]). by right.
Qed.

Lemma semantic_rows_sound_witness :
  "doctor" <> "physician"
  /\ @are_synonyms Sample.plain "doctor" "physician" = true.
Proof.
  pose proof (@semantic_rows_sound Sample.plain 4 Sample.doctor_and_physician
                [([("doctor", [])], ["leave"], []); ([("physician", [])], ["stay"], [])]
                {| df_columns := svo_columns;
                   df_rows := [ mk_row "doctor" "Who" "leave" "Did"
                                  "[[('doctor', [])], ['leave'], []]" 0;
                                mk_row "physician" "Who" "stay" "Did"
                                  "[[('physician', [])], ['stay'], []]" 0;
                                mk_row "doctor" "Who" "physician" "Who" "N/A" 1 ] |}
                (mk_row "doctor" "Who" "physician" "Who" "N/A" 1)
                ltac:(vm_compute; reflexivity) ltac:(vm_compute; reflexivity)
                ltac:(simpl; do 2 right; left) eq_refl) as (Hne & Hsyn & _).
  split; [exact Hne | exact Hsyn].
Defined.

Lemma svo_triples_elem `{Externals} doc fuel svos svo :
  svo_triples doc fuel = Some svos -> svo ∈ svos ->
  exists verb, verb < length doc /\ qualifies doc verb = true
               /\ svo_of doc fuel verb = Some svo.
Proof.
  intros Hsvos Hsvo. unfold svo_triples in Hsvos.
  destruct (mapM_elem _ _ _ _ Hsvos Hsvo) as (verb & Hverb & Hof).
  apply elem_of_bfilter in Hverb as [Hq Hverb]. apply elem_of_indices in Hverb.
  by exists verb.
Qed.

Lemma svo_of_parts `{Externals} doc fuel verb svo :
  svo_of doc fuel verb = Some svo ->
  get_verb_subjects doc fuel verb = Some svo.1.1
  /\ get_verb_phrase doc fuel verb = Some svo.1.2
  /\ get_verb_objects doc fuel verb = Some svo.2.
Proof.
  unfold svo_of. intros Hsvo.
  apply bind_Some in Hsvo as (subjects & Hs & Hsvo).
  apply bind_Some in Hsvo as (objects & Ho & Hsvo).
  apply bind_Some in Hsvo as (verbs & Hv & Hsvo).
  injection Hsvo as <-. done.
Qed.

(** X4. A row of syntactic provenance in a returned table comes from one
    qualifying token: its trace is the dump of that token's subjects, verb
    phrase and objects, and its two nodes are a subject and the verb phrase,
    the verb phrase and an object, two subjects, or two objects of that
    token, with the matching roles. *)
Theorem syntactic_rows_sound `{Externals} (fuel : nat) (doc : Doc)
    (df : DataFrame) (r : Row) :
  extract_svos fuel doc = Some df ->
  r ∈ df_rows df ->
  Semantic_Syntactic r = 0 ->
  exists verb subjects verbs objects,
    qualifies doc verb = true
    /\ get_verb_subjects doc fuel verb = Some subjects
    /\ get_verb_phrase doc fuel verb = Some verbs
    /\ get_verb_objects doc fuel verb = Some objects
    /\ Hypergraph r = py_str (subjects, verbs, objects)
    /\ ((WDW r = "Who" /\ WDW2 r = "Did"
         /\ Node_1 r ∈ map fst subjects /\ Node_2 r ∈ verbs)
        \/ (WDW r = "Did" /\ WDW2 r = "What"
            /\ Node_1 r ∈ verbs /\ Node_2 r ∈ map fst objects)
        \/ (WDW r = "Who" /\ WDW2 r = "Who"
            /\ Node_1 r ∈ map fst subjects /\ Node_2 r ∈ map fst subjects)
        \/ (WDW r = "What" /\ WDW2 r = "What"
            /\ Node_1 r ∈ map fst objects /\ Node_2 r ∈ map fst objects)).
Proof.
  intros Hdf Hr Hkind. unfold extract_svos in Hdf.
  apply bind_Some in Hdf as (svos & Hsvos & Hdf). injection Hdf as <-.
  simpl in Hr. apply elem_of_app in Hr as [Hr|Hr].
  2:{ unfold semantic_rows in Hr.
      assert (Hone : Semantic_Syntactic r = 1).
      { apply elem_of_app in Hr as [Hr|Hr];
          apply elem_of_synonym_rows in Hr as (p & _ & _ & ->); done. }
      rewrite Hone in Hkind. discriminate. }
  unfold syntactic_rows in Hr.
  apply elem_of_flat_map_iff in Hr as (svo & Hsvo & Hr).
  destruct (svo_triples_elem _ _ _ _ Hsvos Hsvo) as (verb & _ & Hq & Hof).
  destruct (svo_of_parts _ _ _ _ Hof) as (Hs & Hv & Ho).
  destruct svo as [[subjects verbs] objects]. simpl in *.
  exists verb, subjects, verbs, objects. do 4 (split; [done|]).
  assert (Hfst : forall (l : list Phrase) p, p ∈ l -> p.1 ∈ map fst l).
  { intros l p Hp. apply elem_of_map_iff. by exists p. }
  apply elem_of_svo_rows in Hr
    as [(p & v & Hp & Hvv & ->)|[(v & p & Hvv & Hp & ->)|[(pq & Hpq & ->)|(pq & Hpq & ->)]]];
    simpl; (split; [done|]).
  - left. do 2 (split; [done|]). split; [by apply Hfst | done].
  - right; left. do 2 (split; [done|]). split; [done | by apply Hfst].
  - right; right; left. destruct (combinations2_elem _ _ Hpq).
    do 2 (split; [done|]). split; by apply Hfst.
  - right; right; right. destruct (combinations2_elem _ _ Hpq).
    do 2 (split; [done|]). split; by apply Hfst.
Qed.

Lemma syntactic_rows_sound_witness :
  exists verb subjects verbs objects,
    @qualifies Sample.alice_and_bob_left verb = true
    /\ get_verb_subjects Sample.alice_and_bob_left 4 verb = Some subjects
    /\ @get_verb_phrase Sample.plain Sample.alice_and_bob_left 4 verb = Some verbs
    /\ get_verb_objects Sample.alice_and_bob_left 4 verb = Some objects
    /\ "[[('Alice', []), ('Bob', [])], ['leave'], []]"
       = @py_str Sample.plain (subjects, verbs, objects).
Proof.
  destruct (@syntactic_rows_sound Sample.plain 4 Sample.alice_and_bob_left
              {| df_columns := svo_columns;
                 df_rows := [ mk_row "Alice" "Who" "leave" "Did"
                                "[[('Alice', []), ('Bob', [])], ['leave'], []]" 0;
                              mk_row "Bob" "Who" "leave" "Did"
                                "[[('Alice', []), ('Bob', [])], ['leave'], []]" 0;
                              mk_row "Alice" "Who" "Bob" "Who"
                                "[[('Alice', []), ('Bob', [])], ['leave'], []]" 0 ] |}
              (mk_row "Alice" "Who" "Bob" "Who"
                 "[[('Alice', []), ('Bob', [])], ['leave'], []]" 0)
              ltac:(vm_compute; reflexivity) ltac:(simpl; do 2 right; left) eq_refl)
    as (verb & subjects & verbs & objects & Hq & Hs & Hv & Ho & Htrace & _).
  exists verb, subjects, verbs, objects. done.
Defined.

(** ** Summaries of a returned table *)

Lemma elem_of_unique l x : x ∈ unique l <-> x ∈ l.
Proof.
  induction l as [|y l IH]; simpl; [done|].
  rewrite !elem_of_cons, elem_of_bfilter, negb_true_iff, String.eqb_neq, IH.
  destruct (decide (x = y)); naive_solver.
Qed.

Lemma NoDup_unique l : NoDup (unique l).
Proof.
  induction l as [|y l IH]; simpl; [constructor|].
  apply NoDup_cons. split.
  - rewrite elem_of_bfilter, negb_true_iff, String.eqb_neq. naive_solver.
  - clear -IH. induction IH as [|x k Hx Hnd IHk]; simpl; [constructor|].
    destruct (negb (String.eqb x y)); [|done].
    apply NoDup_cons. split; [|done]. rewrite elem_of_bfilter. naive_solver.
Qed.

Section SummaryFacts.
Context {V : Type} `{Countable V}.
Variable compute_valence : string -> V.

Lemma elem_of_valence_tuples words w v :
  (w, v) ∈ valence_tuples compute_valence words
  <-> w ∈ words /\ v = compute_valence w.
Proof.
  unfold valence_tuples. rewrite elem_of_list_to_set, elem_of_map_iff. split.
  - intros (x & Hx & Heq). injection Heq as -> ->. done.
  - intros [Hw ->]. by exists w.
Qed.

(** One tuple per distinct word. *)
Lemma size_valence_tuples words :
  NoDup words -> size (valence_tuples compute_valence words) = length words.
Proof.
  intros Hnd. unfold valence_tuples.
  rewrite size_list_to_set, length_map; [done|].
  apply NoDup_fmap_2_strong; [|done]. intros x y _ _ Heq. by injection Heq.
Qed.
End SummaryFacts.

Section SummariesOfExtraction.
Context `{Externals} {V : Type} `{Countable V}.
Variable compute_valence : string -> V.
Variables (fuel : nat) (doc : Doc) (svos : list SVO) (df : DataFrame).
Hypothesis Hsvos : svo_triples doc fuel = Some svos.
Hypothesis Hdf : extract_svos fuel doc = Some df.

Lemma df_rows_split : df_rows df = syntactic_rows svos ++ semantic_rows svos.
Proof.
  unfold extract_svos in Hdf. rewrite Hsvos in Hdf. by injection Hdf as <-.
Qed.

Lemma svos_one_verb svo : svo ∈ svos -> exists v, svo.1.2 = [v].
Proof.
  intros Hsvo. destruct (svo_triples_elem _ _ _ _ Hsvos Hsvo) as (verb & _ & _ & Hof).
  destruct (svo_of_parts _ _ _ _ Hof) as (_ & Hv & _).
  by apply (get_verb_phrase_singleton doc fuel verb).
Qed.

Lemma elem_of_all_subjects s :
  s ∈ all_subjects svos <-> exists svo, svo ∈ svos /\ s ∈ map fst svo.1.1.
Proof. unfold all_subjects. apply elem_of_flat_map_iff. Qed.

Lemma elem_of_all_objects s :
  s ∈ all_objects svos <-> exists svo, svo ∈ svos /\ s ∈ map fst svo.2.
Proof. unfold all_objects. apply elem_of_flat_map_iff. Qed.

Lemma elem_of_df_rows r :
  r ∈ df_rows df <->
  (exists svo, svo ∈ svos /\ r ∈ svo_rows svo)
  \/ r ∈ synonym_rows "Who" (list_of_set (all_subjects svos))
  \/ r ∈ synonym_rows "What" (list_of_set (all_objects svos)).
Proof.
  rewrite df_rows_split. unfold syntactic_rows, semantic_rows.
  by rewrite !elem_of_app, elem_of_flat_map_iff.
Qed.

Lemma who_nodes s :
  s ∈ map Node_1 (List.filter (fun r => String.eqb (WDW r) "Who") (df_rows df))
  <-> s ∈ all_subjects svos.
Proof.
  rewrite elem_of_map_iff. split.
  - intros (r & Hr & ->). apply elem_of_bfilter in Hr as [Hrole Hr].
    apply String.eqb_eq in Hrole.
    apply elem_of_df_rows in Hr as [(svo & Hsvo & Hr)|[Hr|Hr]].
    + apply elem_of_all_subjects. exists svo. split; [done|].
      destruct svo as [[subjects verbs] objects]. simpl.
      apply elem_of_svo_rows in Hr
        as [(p & v & Hp & Hv & ->)|[(v & p & Hv & Hp & ->)|[(pq & Hpq & ->)|(pq & Hpq & ->)]]];
        simpl in *; try discriminate.
      * apply elem_of_map_iff. by exists p.
      * destruct (combinations2_elem _ _ Hpq). apply elem_of_map_iff. by exists pq.1.
    + apply elem_of_synonym_rows in Hr as (p & Hp & _ & ->).
      destruct (combinations2_elem _ _ Hp) as [H1 _].
      exact (proj1 (list_of_set_elem _ _) H1).
    + apply elem_of_synonym_rows in Hr as (p & _ & _ & ->). discriminate.
  - intros Hs. apply elem_of_all_subjects in Hs as (svo & Hsvo & Hs).
    destruct (svos_one_verb svo Hsvo) as [v Hv].
    apply elem_of_map_iff in Hs as (p & Hp & ->).
    exists (mk_row p.1 "Who" v "Did" (py_str svo) 0). split; [|done].
    apply elem_of_bfilter. split; [done|].
    apply elem_of_df_rows. left. exists svo. split; [done|].
    destruct svo as [[subjects verbs] objects]. simpl in *. subst verbs.
    apply elem_of_svo_rows. left. exists p, v. split; [done|]. split; [left | done].
Qed.

Lemma what_nodes s :
  s ∈ map Node_2 (List.filter (fun r => String.eqb (WDW2 r) "What") (df_rows df))
  <-> s ∈ all_objects svos.
Proof.
  rewrite elem_of_map_iff. split.
  - intros (r & Hr & ->). apply elem_of_bfilter in Hr as [Hrole Hr].
    apply String.eqb_eq in Hrole.
    apply elem_of_df_rows in Hr as [(svo & Hsvo & Hr)|[Hr|Hr]].
    + apply elem_of_all_objects. exists svo. split; [done|].
      destruct svo as [[subjects verbs] objects]. simpl.
      apply elem_of_svo_rows in Hr
        as [(p & v & Hp & Hv & ->)|[(v & p & Hv & Hp & ->)|[(pq & Hpq & ->)|(pq & Hpq & ->)]]];
        simpl in *; try discriminate.
      * apply elem_of_map_iff. by exists p.
      * destruct (combinations2_elem _ _ Hpq). apply elem_of_map_iff. by exists pq.2.
    + apply elem_of_synonym_rows in Hr as (p & _ & _ & ->). discriminate.
    + apply elem_of_synonym_rows in Hr as (p & Hp & _ & ->).
      destruct (combinations2_elem _ _ Hp) as [_ H2].
      exact (proj1 (list_of_set_elem _ _) H2).
  - intros Hs. apply elem_of_all_objects in Hs as (svo & Hsvo & Hs).
    destruct (svos_one_verb svo Hsvo) as [v Hv].
    apply elem_of_map_iff in Hs as (p & Hp & ->).
    exists (mk_row v "Did" p.1 "What" (py_str svo) 0). split; [|done].
    apply elem_of_bfilter. split; [done|].
    apply elem_of_df_rows. left. exists svo. split; [done|].
    destruct svo as [[subjects verbs] objects]. simpl in *. subst verbs.
    apply elem_of_svo_rows. right; left. exists v, p. split; [left | done].
Qed.

Lemma did_nodes w :
  w ∈ map Node_1 (List.filter (fun r => String.eqb (WDW r) "Did") (df_rows df))
      ++ map Node_2 (List.filter (fun r => String.eqb (WDW2 r) "Did") (df_rows df))
  <-> exists svo, svo ∈ svos /\ w ∈ svo.1.2 /\ (svo.1.1 <> [] \/ svo.2 <> []).
Proof.
  rewrite elem_of_app, !elem_of_map_iff. split.
  - intros [(r & Hr & ->)|(r & Hr & ->)];
      apply elem_of_bfilter in Hr as [Hrole Hr]; apply String.eqb_eq in Hrole;
      apply elem_of_df_rows in Hr as [(svo & Hsvo & Hr)|[Hr|Hr]];
      try (apply elem_of_synonym_rows in Hr as (p & _ & _ & ->); discriminate);
      exists svo; (split; [done|]);
      destruct svo as [[subjects verbs] objects]; simpl;
      apply elem_of_svo_rows in Hr
        as [(p & v & Hp & Hv & ->)|[(v & p & Hv & Hp & ->)|[(pq & Hpq & ->)|(pq & Hpq & ->)]]];
      simpl in *; try discriminate.
    + split; [done|]. right. intros ->. by apply elem_of_nil in Hp.
    + split; [done|]. left. intros ->. by apply elem_of_nil in Hp.
  - intros (svo & Hsvo & Hw & Hne).
    destruct svo as [[subjects verbs] objects]. simpl in *.
    destruct Hne as [Hne|Hne].
    + destruct subjects as [|p subjects]; [done|]. right.
      exists (mk_row p.1 "Who" w "Did" (py_str (p :: subjects, verbs, objects)) 0).
      split; [|done]. apply elem_of_bfilter. split; [done|].
      apply elem_of_df_rows. left. eexists. split; [exact Hsvo|].
      apply elem_of_svo_rows. left. exists p, w. split; [left | done].
    + destruct objects as [|p objects]; [done|]. left.
      exists (mk_row w "Did" p.1 "What" (py_str (subjects, verbs, p :: objects)) 0).
      split; [|done]. apply elem_of_bfilter. split; [done|].
      apply elem_of_df_rows. left. eexists. split; [exact Hsvo|].
      apply elem_of_svo_rows. right; left. exists w, p. split; [done|]. split; [left | done].
Qed.
End SummariesOfExtraction.

Lemma same_elements_length (l k : list string) :
  NoDup l -> NoDup k -> (forall x, x ∈ l <-> x ∈ k) -> length l = length k.
Proof. intros Hl Hk Hel. apply Permutation_length, NoDup_Permutation; done. Qed.

(** X5. The subject summary of a table returned by [extract_svos] holds
    exactly the subject strings resolved for the qualifying tokens, each once
    and with its valence: as many tuples as the synonym pass has subject
    nodes. *)
Theorem extract_set_subjects_of_extraction `{Externals} {V : Type} `{Countable V}
    (compute_valence : string -> V) (fuel : nat) (doc : Doc)
    (svos : list SVO) (df : DataFrame) :
  svo_triples doc fuel = Some svos ->
  extract_svos fuel doc = Some df ->
  (forall s v, (s, v) ∈ extract_set_subjects compute_valence df
               <-> s ∈ all_subjects svos /\ v = compute_valence s)
  /\ size (extract_set_subjects compute_valence df)
     = length (list_of_set (all_subjects svos)).
Proof.
  intros Hsvos Hdf. unfold extract_set_subjects. split.
  - intros s v. rewrite elem_of_valence_tuples, elem_of_unique.
    by rewrite (who_nodes fuel doc svos df Hsvos Hdf).
  - rewrite size_valence_tuples by apply NoDup_unique.
    apply same_elements_length; [apply NoDup_unique | apply list_of_set_NoDup |].
    intros s. rewrite elem_of_unique, (who_nodes fuel doc svos df Hsvos Hdf).
    symmetry. apply list_of_set_elem.
Qed.

Lemma extract_set_subjects_of_extraction_witness :
  exists df,
    @extract_svos Sample.plain 4 Sample.doctor_and_physician = Some df
    /\ size (extract_set_subjects String.length df) = 2.
Proof.
  eexists. split; [vm_compute; reflexivity|].
  rewrite (proj2 (@extract_set_subjects_of_extraction Sample.plain nat _ _
                    String.length 4 Sample.doctor_and_physician _ _
                    ltac:(vm_compute; reflexivity) ltac:(vm_compute; reflexivity))).
  vm_compute. reflexivity.
Defined.

(** X6. The object summary of a returned table holds exactly the object
    strings resolved for the qualifying tokens, each once and with its
    valence. *)
Theorem extract_set_objects_of_extraction `{Externals} {V : Type} `{Countable V}
    (compute_valence : string -> V) (fuel : nat) (doc : Doc)
    (svos : list SVO) (df : DataFrame) :
  svo_triples doc fuel = Some svos ->
  extract_svos fuel doc = Some df ->
  (forall s v, (s, v) ∈ extract_set_objects compute_valence df
               <-> s ∈ all_objects svos /\ v = compute_valence s)
  /\ size (extract_set_objects compute_valence df)
     = length (list_of_set (all_objects svos)).
Proof.
  intros Hsvos Hdf. unfold extract_set_objects. split.
  - intros s v. rewrite elem_of_valence_tuples, elem_of_unique.
    by rewrite (what_nodes fuel doc svos df Hsvos Hdf).
  - rewrite size_valence_tuples by apply NoDup_unique.
    apply same_elements_length; [apply NoDup_unique | apply list_of_set_NoDup |].
    intros s. rewrite elem_of_unique, (what_nodes fuel doc svos df Hsvos Hdf).
    symmetry. apply list_of_set_elem.
Qed.

Lemma extract_set_objects_of_extraction_witness :
  exists df,
    @extract_svos Sample.plain 4 Sample.alice_and_bob_eat = Some df
    /\ size (extract_set_objects String.length df) = 3.
Proof.
  eexists. split; [vm_compute; reflexivity|].
  rewrite (proj2 (@extract_set_objects_of_extraction Sample.plain nat _ _
                    String.length 4 Sample.alice_and_bob_eat _ _
                    ltac:(vm_compute; reflexivity) ltac:(vm_compute; reflexivity))).
  vm_compute. reflexivity.
Defined.

(** X7. The verb summary of a returned table holds the verb phrase of a
    qualifying token exactly when that token has a subject or an object: a
    verb phrase without either leaves no row and is not in the summary. *)
Theorem extract_set_verbs_of_extraction `{Externals} {V : Type} `{Countable V}
    (compute_valence : string -> V) (fuel : nat) (doc : Doc)
    (svos : list SVO) (df : DataFrame) :
  svo_triples doc fuel = Some svos ->
  extract_svos fuel doc = Some df ->
  forall w v,
    (w, v) ∈ extract_set_verbs compute_valence df
    <-> (exists svo, svo ∈ svos /\ w ∈ svo.1.2 /\ (svo.1.1 <> [] \/ svo.2 <> []))
        /\ v = compute_valence w.
Proof.
  intros Hsvos Hdf w v. unfold extract_set_verbs.
  rewrite elem_of_valence_tuples, elem_of_unique.
  by rewrite (did_nodes fuel doc svos df Hsvos Hdf).
Qed.

(** "Home, walking and talking nonsense": "talk" has an object and is in the
    summary. *)
Lemma extract_set_verbs_of_extraction_witness :
  exists df,
    @extract_svos Sample.plain 4 Sample.conj_of_npadvmod = Some df
    /\ ("talk", 4) ∈ extract_set_verbs String.length df.
Proof.
  eexists. split; [vm_compute; reflexivity|].
  apply (@extract_set_verbs_of_extraction Sample.plain nat _ _
           String.length 4 Sample.conj_of_npadvmod
           [([], ["talk"], [("nonsense", [])])] _
           ltac:(vm_compute; reflexivity) ltac:(vm_compute; reflexivity)).
  split; [|reflexivity].
  exists ([], ["talk"], [("nonsense", [])]).
  split; [left|]. split; [left|]. right. discriminate.
Defined.

(** ** The synonym test *)

(** X8. [are_synonyms] is symmetric; a word is its own synonym exactly when
    WordNet has a synset for it; and a word without synsets is a synonym of
    nothing. *)
Theorem are_synonyms_properties `{Externals} (a b : string) :
  are_synonyms a b = are_synonyms b a
  /\ (are_synonyms a a = true <-> wn_synsets a <> [])
  /\ (wn_synsets a = [] -> are_synonyms a b = false /\ are_synonyms b a = false).
Proof.
  split; [apply are_synonyms_sym|].
  assert (Hnone : wn_synsets a = [] -> are_synonyms a b = false).
  { intros Ha. unfold are_synonyms. by rewrite Ha. }
  split.
  - split.
    + intros Hs Ha. unfold are_synonyms in Hs. rewrite Ha in Hs. discriminate.
    + intros Ha. unfold are_synonyms. destruct (wn_synsets a) as [|s l]; [done|].
      simpl. by rewrite String.eqb_refl.
  - intros Ha. split; [by apply Hnone|]. rewrite are_synonyms_sym. by apply Hnone.
Qed.

Lemma are_synonyms_properties_witness :
  @are_synonyms (Sample.plain) "Alice" "doctor" = false
  /\ @are_synonyms (Sample.plain) "doctor" "Alice" = false.
Proof.
  apply (proj2 (proj2 (@are_synonyms_properties Sample.plain "Alice" "doctor"))).
  reflexivity.
Defined.

(** ** The additive rules of the resolvers *)

(** X9. For a verb not labelled acl or relcl, what the direct-subject rule,
    the clausal-subject rule and the conjoined-noun rule find is always among
    the returned subjects: the entries of every nsubj child, the clause of
    every csubj child (without prepositional attachments), and the entries of
    every nominal conj child. *)
Theorem subject_rules_additive (d : Doc) (fuel verb : nat)
    (subjects : list Phrase) :
  dep_ d verb ∉ ["acl"; "relcl"] ->
  get_verb_subjects d (S fuel) verb = Some subjects ->
  (forall c, c ∈ children_dep d "nsubj" verb ->
     exists entries, extract_subjects d fuel c = Some entries /\ entries ⊆ subjects)
  /\ (forall c, c ∈ children_dep d "csubj" verb ->
        (extract_clause d c, []) ∈ subjects)
  /\ (forall c, c ∈ children d verb -> dep_ d c = "conj" -> pos_ d c ∈ nominal ->
        exists entries, extract_subjects d fuel c = Some entries /\ entries ⊆ subjects).
Proof.
  intros Hdep Hres. cbn [get_verb_subjects] in Hres.
  apply str_in_false in Hdep. rewrite Hdep in Hres.
  apply bind_Some in Hres as (direct & Hdirect & Hres).
  apply bind_Some in Hres as (agents & _ & Hres).
  apply bind_Some in Hres as (s1 & Hs1 & Hres).
  apply bind_Some in Hres as (s2 & Hs2 & Hres).
  apply bind_Some in Hres as (extra & Hextra & Hres).
  assert (Hkeep : forall e : list (string * list string),
            e ⊆ direct
                ++ map (fun c => (extract_clause d c, []))
                     (children_dep d "csubj" verb)
                ++ agents ->
            e ⊆ subjects).
  { intros e He.
    assert (He1 : e ⊆ s1).
    { eapply kept_if_nonempty; [exact He|]. intros Hne.
      rewrite Hne in Hs1. by injection Hs1. }
    assert (He2 : e ⊆ s2).
    { eapply kept_if_nonempty; [exact He1|]. intros Hne.
      rewrite Hne in Hs2. simpl in Hs2. by injection Hs2. }
    injection Hres as <-.
    destruct (negb (nonempty (s2 ++ extra)) && is_imperative d verb);
      [do 2 apply subseteq_app_l' | apply subseteq_app_l']; done. }
  split; [|split].
  - intros c Hc.
    assert (Hin : c ∈ children_dep_in d ["nsubj"] verb).
    { apply elem_of_children_dep in Hc as [Hc Hl]. apply elem_of_children_dep_in.
      split; [done|]. rewrite Hl. left. }
    destruct (expand_elem _ _ _ _ Hdirect Hin) as (entries & He & Hsub).
    exists entries. split; [done|]. by apply Hkeep, subseteq_app_l'.
  - intros c Hc.
    assert (Hsingle : [(extract_clause d c, @nil string)] ⊆ subjects).
    { apply Hkeep, subseteq_app_r', subseteq_app_l'.
      intros x Hx. apply list_elem_of_singleton in Hx as ->.
      apply elem_of_map_iff. by exists c. }
    apply Hsingle. left.
  - intros c Hc Hl Hp.
    assert (Hin : c ∈ conj_nouns d verb).
    { unfold conj_nouns. apply elem_of_bfilter. split; [|done].
      rewrite Hl. apply andb_true_iff. split; [reflexivity | by apply str_in_spec]. }
    destruct (expand_elem _ _ _ _ Hextra Hin) as (entries & He & Hsub).
    exists entries. split; [done|].
    injection Hres as <-.
    destruct (negb (nonempty (s2 ++ extra)) && is_imperative d verb);
      [apply subseteq_app_l'|]; by apply subseteq_app_r'.
Qed.

Lemma subject_rules_additive_witness :
  exists entries,
    extract_subjects Sample.alice_and_bob_left 1 0 = Some entries
    /\ entries ⊆ [("Alice", []); ("Bob", [])].
Proof.
  apply (proj1 (subject_rules_additive Sample.alice_and_bob_left 1 3
                  [("Alice", []); ("Bob", [])]
                  ltac:(apply str_in_false; reflexivity)
                  ltac:(vm_compute; reflexivity))).
  vm_compute. left.
Defined.

(** X10. A root verb in the imperative mood or of tag VB never comes out
    without a subject, and with nothing below it its only subject is the
    default "you". *)
Theorem imperative_default (d : Doc) (fuel verb : nat) (subjects : list Phrase) :
  dep_ d verb ∉ ["acl"; "relcl"] ->
  is_imperative d verb = true ->
  get_verb_subjects d (S fuel) verb = Some subjects ->
  subjects <> []
  /\ (children d verb = [] -> dep_ d verb <> "conj" -> subjects = [("you", [])]).
Proof.
  intros Hdep Himp Hres. cbn [get_verb_subjects] in Hres.
  apply str_in_false in Hdep. rewrite Hdep in Hres. split.
  - apply bind_Some in Hres as (direct & _ & Hres).
    apply bind_Some in Hres as (agents & _ & Hres).
    apply bind_Some in Hres as (s1 & _ & Hres).
    apply bind_Some in Hres as (s2 & _ & Hres).
    apply bind_Some in Hres as (extra & _ & Hres).
    injection Hres as <-. rewrite Himp, andb_true_r.
    destruct (s2 ++ extra) as [|p l]; simpl; discriminate.
  - intros Hch Hconj.
    assert (Hroot : head d verb = verb).
    { unfold is_imperative in Himp. apply andb_true_iff in Himp as [Hh _].
      by apply Nat.eqb_eq in Hh. }
    unfold children_dep_in, children_dep, agent_pobjs, ancestor_subjects,
      conj_nouns, children_dep in Hres.
    rewrite Hch, (ancestors_of_root _ _ Hroot), Himp in Hres.
    rewrite (proj2 (String.eqb_neq _ _) Hconj) in Hres.
    simpl in Hres. by injection Hres as <-.
Qed.

Lemma imperative_default_witness :
  [("you", @nil string)] <> [].
Proof.
  apply (proj1 (imperative_default Sample.close_the_door 1 0 [("you", [])]
                  ltac:(apply str_in_false; reflexivity)
                  ltac:(reflexivity) ltac:(vm_compute; reflexivity))).
Defined.

(** X11. What a verb's own object rules find is always among the returned
    objects: the entries of every dobj, attr, oprd, acomp and iobj child, of
    every pobj child of a prep child, of every npadvmod child of class PROPN
    or PRON, and the subject entries of every nsubj or nsubjpass child of a
    ccomp child. *)
Theorem object_rules_additive (d : Doc) (fuel verb : nat) (objects : list Phrase) :
  get_verb_objects d (S fuel) verb = Some objects ->
  (forall c, c ∈ children d verb ->
     dep_ d c ∈ ["dobj"; "attr"; "oprd"; "acomp"; "iobj"] ->
     exists entries, extract_objects d fuel c = Some entries /\ entries ⊆ objects)
  /\ (forall prep pobj, prep ∈ children_dep d "prep" verb ->
        pobj ∈ children_dep d "pobj" prep ->
        exists entries, extract_objects d fuel pobj = Some entries
                        /\ entries ⊆ objects)
  /\ (forall c, c ∈ children d verb -> dep_ d c = "npadvmod" ->
        pos_ d c ∈ ["PROPN"; "PRON"] ->
        exists entries, extract_objects d fuel c = Some entries /\ entries ⊆ objects)
  /\ (forall clause subj, clause ∈ children_dep d "ccomp" verb ->
        subj ∈ children_dep_in d ["nsubj"; "nsubjpass"] clause ->
        exists entries, extract_subjects d fuel subj = Some entries
                        /\ entries ⊆ objects).
Proof.
  intros Hres. cbn [get_verb_objects] in Hres.
  apply bind_Some in Hres as (direct & Hdirect & Hres).
  apply bind_Some in Hres as (indirect & Hindirect & Hres).
  apply bind_Some in Hres as (prepositional & Hprep & Hres).
  apply bind_Some in Hres as (passive & _ & Hres).
  apply bind_Some in Hres as (adverbial & Hadv & Hres).
  apply bind_Some in Hres as (clausal & Hclausal & Hres).
  apply bind_Some in Hres as (open & _ & Hres).
  match type of Hres with
  | (if nonempty ?own then _ else _) = _ =>
    assert (Hkeep : forall e, e ⊆ own -> e ⊆ objects)
  end.
  { intros e He. eapply kept_if_nonempty; [exact He|].
    intros Hn. rewrite Hn in Hres. by injection Hres. }
  split; [|split; [|split]].
  - intros c Hc Hl.
    destruct (decide (dep_ d c = "iobj")) as [Hi|Hi].
    + assert (Hin : c ∈ children_dep d "iobj" verb)
        by (by apply elem_of_children_dep).
      destruct (expand_elem _ _ _ _ Hindirect Hin) as (entries & He & Hsub).
      exists entries. split; [done|].
      by apply Hkeep, subseteq_app_r', subseteq_app_l'.
    + assert (Hin : c ∈ children_dep_in d ["dobj"; "attr"; "oprd"; "acomp"] verb).
      { apply elem_of_children_dep_in. split; [done|].
        rewrite !elem_of_cons, elem_of_nil in *. naive_solver. }
      destruct (expand_elem _ _ _ _ Hdirect Hin) as (entries & He & Hsub).
      exists entries. split; [done|]. by apply Hkeep, subseteq_app_l'.
  - intros prep pobj Hp Hpobj.
    destruct (expand_elem _ _ _ _ Hprep Hp) as (found & Hfound & Hsub).
    apply bind_Some in Hfound as (preps & Hpreps & Hfound).
    destruct (get_conjuncts_chased d fuel prep ∅ preps) as [[_ _ _ Hfirst _] _];
      [apply not_elem_of_empty | done |].
    assert (Hin : prep ∈ preps.1) by (apply list_elem_of_lookup; by exists 0).
    destruct (expand_elem _ _ _ _ Hfound Hin) as (of_prep & Hof & Hsub').
    destruct (expand_elem _ _ _ _ Hof Hpobj) as (entries & He & Hsub'').
    exists entries. split; [done|].
    apply Hkeep. do 2 apply subseteq_app_r'. apply subseteq_app_l'.
    intros x Hx. by apply Hsub, Hsub', Hsub''.
  - intros c Hc Hl Hpos.
    assert (Hin : c ∈ List.filter
              (fun c => String.eqb (dep_ d c) "npadvmod"
                        && str_in (pos_ d c) ["PROPN"; "PRON"]) (children d verb)).
    { apply elem_of_bfilter. split; [|done]. rewrite Hl.
      apply andb_true_iff. split; [reflexivity | by apply str_in_spec]. }
    destruct (expand_elem _ _ _ _ Hadv Hin) as (entries & He & Hsub).
    exists entries. split; [done|].
    apply Hkeep. do 4 apply subseteq_app_r'. by apply subseteq_app_l'.
  - intros clause subj Hclause Hsubj.
    assert (Hin : clause ∈ children_dep_in d ["ccomp"] verb).
    { apply elem_of_children_dep in Hclause as [Hc Hl].
      apply elem_of_children_dep_in. split; [done|]. rewrite Hl. left. }
    destruct (expand_elem _ _ _ _ Hclausal Hin) as (found & Hfound & Hsub).
    destruct (expand_elem _ _ _ _ Hfound Hsubj) as (entries & He & Hsub').
    exists entries. split; [done|].
    apply Hkeep. do 5 apply subseteq_app_r'. apply subseteq_app_l'.
    intros x Hx. by apply Hsub, Hsub'.
Qed.

Lemma object_rules_additive_witness :
  exists entries,
    extract_objects Sample.alice_and_bob_eat 1 4 = Some entries
    /\ entries ⊆ [("apple", []); ("pear", []); ("plum", [])].
Proof.
  apply (proj1 (object_rules_additive Sample.alice_and_bob_eat 1 3
                  [("apple", []); ("pear", []); ("plum", [])]
                  ltac:(vm_compute; reflexivity))).
  - vm_compute. right. left.
  - left.
Defined.

(** ** The shape of the assembled strings *)

Lemma str_app_assoc (a b c : string) : (a +:+ b) +:+ c = a +:+ (b +:+ c).
Proof.
  induction a as [|x a IH]; [done|].
  change (String x ((a +:+ b) +:+ c) = String x (a +:+ b +:+ c)). by rewrite IH.
Qed.

Lemma str_app_nil_r (a : string) : a +:+ "" = a.
Proof.
  induction a as [|x a IH]; [done|].
  change (String x (a +:+ "") = String x a). by rewrite IH.
Qed.

Lemma join_cons sep x l :
  join sep (x :: l) = x +:+ (match l with [] => "" | _ => sep +:+ join sep l end).
Proof.
  unfold join. destruct l as [|y l]; [|done].
  change (x = x +:+ ""). by rewrite str_app_nil_r.
Qed.

(** A word of the joined list stands in the string. *)
Lemma join_middle sep l1 w l2 :
  exists pre post, join sep (l1 ++ w :: l2) = pre +:+ w +:+ post
                   /\ (l2 = [] -> post = "").
Proof.
  induction l1 as [|x l1 IH].
  - exists "". eexists. simpl app. rewrite join_cons. split; [reflexivity|].
    by intros ->.
  - destruct IH as (pre & post & Heq & Hpost).
    exists (x +:+ sep +:+ pre), post. split; [|done].
    change ((x :: l1) ++ w :: l2) with (x :: (l1 ++ w :: l2)).
    assert (Hne : match l1 ++ w :: l2 with
                  | [] => ""
                  | _ => sep +:+ join sep (l1 ++ w :: l2)
                  end = sep +:+ join sep (l1 ++ w :: l2)) by (by destruct l1).
    rewrite join_cons, Hne, Heq, !str_app_assoc. done.
Qed.

Lemma mapM_lengths {A B} (f : A -> option (list B)) (g : A -> nat) l r :
  mapM f l = Some r ->
  (forall x y, x ∈ l -> f x = Some y -> length y = g x) ->
  length (concat r) = sum_list_with g l.
Proof.
  intros Hm. apply mapM_Some_1 in Hm.
  induction Hm as [|x y l r Hx Hm IH]; intros Hg; [done|].
  simpl. rewrite length_app, (Hg x y) by (done || left).
  f_equal. apply IH. intros x' y' Hx' Hy'. apply (Hg x' y'); [by right | done].
Qed.

(** X12. The main phrase of the Phrase Assembler ends with the token's own
    word (lemma or surface text, by mode). For a token without acl or relcl
    children there is one prepositional string per prep child and per
    conjunct of a prep child, and each begins with the surface text of its
    preposition. *)
Theorem get_compound_parts_shape (d : Doc) (fuel : nat) (lemmatize : bool)
    (token : nat) (ph : Phrase) :
  get_compound_parts d (S fuel) lemmatize token = Some ph ->
  (exists pre, ph.1 = pre +:+ word d lemmatize token)
  /\ (children_dep_in d ["acl"; "relcl"] token = [] ->
      length ph.2
      = sum_list_with (fun prep => S (length (conjuncts d prep)))
          (children_dep d "prep" token)
      /\ forall part, part ∈ ph.2 ->
           exists prep p rest,
             prep ∈ children_dep d "prep" token
             /\ (p = prep \/ p ∈ conjuncts d prep)
             /\ part = text d p +:+ rest).
Proof.
  cbn [get_compound_parts]. intros Hres.
  apply bind_Some in Hres as (acl & Hacl & Hres).
  apply bind_Some in Hres as (preps & Hpreps & Hres).
  injection Hres as <-. split.
  - cbn [fst].
    destruct (join_middle " "
                (map (word d lemmatize) (dets d token) ++ flat_map fst acl
                 ++ map (word d lemmatize) (sorted_by_i (collect_modifiers d token)))
                (word d lemmatize token) []) as (pre & post & Heq & Hpost).
    rewrite (Hpost eq_refl) in Heq. exists pre.
    rewrite <- !app_assoc in Heq. rewrite Heq. by rewrite str_app_nil_r.
  - intros Hno. rewrite Hno in Hacl. injection Hacl as <-. cbn [snd flat_map app].
    split.
    + apply (mapM_lengths _ _ _ _ Hpreps). intros prep parts _ Hparts.
      apply length_mapM in Hparts. done.
    + intros part Hpart.
      apply list_elem_of_In, in_concat in Hpart as (parts & Hparts & Hpart).
      apply list_elem_of_In in Hparts, Hpart.
      destruct (mapM_elem _ _ _ _ Hpreps Hparts) as (prep & Hprep & Hinner).
      destruct (mapM_elem _ _ _ _ Hinner Hpart) as (p & Hp & Hjoin).
      apply bind_Some in Hjoin as (items & _ & Hjoin). injection Hjoin as <-.
      exists prep, p. eexists. split; [done|]. split.
      * apply elem_of_cons in Hp as [->|Hp]; [by left | by right].
      * apply join_cons.
Qed.

Lemma get_compound_parts_shape_witness :
  exists pre, "plums" = pre +:+ word Sample.alice_and_bob_eat false 7.
Proof.
  apply (proj1 (get_compound_parts_shape Sample.alice_and_bob_eat 0 false 7
                  ("plums", []) ltac:(vm_compute; reflexivity))).
Defined.

(** ** The modifiers of a phrase *)

(** The tokens that decorate a phrase are the modifier children of the
    token, their children and grandchildren carrying a modifier label, and
    the adjective conjuncts of the modifier children. *)
Lemma collect_modifiers_spec (d : Doc) (token m : nat) :
  m ∈ collect_modifiers d token <->
  exists child,
    child ∈ children d token /\ is_modifier d token child = true
    /\ (m = child
        \/ (m ∈ conjuncts d child /\ pos_ d m = "ADJ" /\ dep_ d m = "conj")
        \/ (m ∈ children d child /\ dep_ d m ∈ deep_modifier_deps)
        \/ (exists grandchild,
              grandchild ∈ children d child
              /\ m ∈ children d grandchild /\ dep_ d m ∈ deep_modifier_deps)).
Proof.
  assert (Hadj : forall child, m ∈ get_conj_ADJ d child <->
            m ∈ conjuncts d child /\ pos_ d m = "ADJ" /\ dep_ d m = "conj").
  { intros child. unfold get_conj_ADJ.
    rewrite elem_of_bfilter, andb_true_iff, !String.eqb_eq. tauto. }
  assert (Hdeep : forall child x,
            m ∈ (if str_in (dep_ d x) deep_modifier_deps
                 then x :: get_conj_ADJ d child else [])
            <-> dep_ d x ∈ deep_modifier_deps /\ (m = x \/ m ∈ get_conj_ADJ d child)).
  { intros child x. destruct (str_in (dep_ d x) deep_modifier_deps) eqn:Hx.
    - apply str_in_spec in Hx. rewrite elem_of_cons. tauto.
    - apply str_in_false in Hx. rewrite elem_of_nil. tauto. }
  unfold collect_modifiers. rewrite elem_of_flat_map_iff.
  split.
  - intros (child & Hchild & Hm). exists child. split; [done|].
    unfold modifiers_of_child in Hm.
    destruct (is_modifier d token child) eqn:Hmod; [|by apply elem_of_nil in Hm].
    split; [done|].
    apply elem_of_cons in Hm as [->|Hm]; [by left|].
    apply elem_of_app in Hm as [Hm|Hm]; [right; left; by apply Hadj|].
    apply elem_of_flat_map_iff in Hm as (g & Hg & Hm).
    unfold modifiers_of_grandchild in Hm.
    apply elem_of_app in Hm as [Hm|Hm].
    + apply Hdeep in Hm as [Hdep [->|Hm]].
      * right; right; left. done.
      * right; left. by apply Hadj.
    + apply elem_of_flat_map_iff in Hm as (gg & Hgg & Hm).
      apply Hdeep in Hm as [Hdep [->|Hm]].
      * right; right; right. by exists g.
      * right; left. by apply Hadj.
  - intros (child & Hchild & Hmod & Hm). exists child. split; [done|].
    unfold modifiers_of_child. rewrite Hmod.
    destruct Hm as [->|[Hm|[[Hm Hdep]|(g & Hg & Hm & Hdep)]]].
    + left.
    + right. apply elem_of_app. left. by apply Hadj.
    + right. apply elem_of_app. right. apply elem_of_flat_map_iff.
      exists m. split; [done|]. unfold modifiers_of_grandchild.
      apply elem_of_app. left. apply Hdeep. split; [done | by left].
    + right. apply elem_of_app. right. apply elem_of_flat_map_iff.
      exists g. split; [done|]. unfold modifiers_of_grandchild.
      apply elem_of_app. right. apply elem_of_flat_map_iff.
      exists m. split; [done|]. apply Hdeep. split; [done | by left].
Qed.

Lemma insert_by_i_Permutation x l : insert_by_i x l ≡ₚ x :: l.
Proof.
  induction l as [|y l IH]; simpl; [done|].
  destruct (Nat.ltb x y); [done|]. rewrite IH. apply Permutation_swap.
Qed.

Lemma insert_by_i_Sorted x l :
  StronglySorted le l -> StronglySorted le (insert_by_i x l).
Proof.
  induction 1 as [|y l Hl IH Hy]; simpl; [repeat constructor|].
  destruct (Nat.ltb_spec x y) as [Hlt|Hge].
  - constructor; [by constructor|].
    constructor; [lia|]. eapply Forall_impl; [exact Hy|]. intros; simpl in *; lia.
  - constructor; [done|].
    rewrite insert_by_i_Permutation. by constructor.
Qed.

(** X14. [sorted(..., key=lambda x: x.i)] as modelled returns its input
    rearranged in ascending index order, so the modifiers of a phrase and the
    tokens of a clause are joined in document order whatever the order in
    which the tree walk met them. *)
Theorem sorted_by_i_spec (l : list nat) :
  sorted_by_i l ≡ₚ l /\ StronglySorted le (sorted_by_i l).
Proof.
  unfold sorted_by_i.
  assert (Hgen : forall acc,
    StronglySorted le acc ->
    fold_left (fun acc x => insert_by_i x acc) l acc ≡ₚ l ++ acc
    /\ StronglySorted le (fold_left (fun acc x => insert_by_i x acc) l acc)).
  { induction l as [|x l IH]; intros acc Hacc; simpl; [done|].
    destruct (IH (insert_by_i x acc)) as [Hp Hs]; [by apply insert_by_i_Sorted|].
    split; [|done]. rewrite Hp, insert_by_i_Permutation.
    by rewrite Permutation_middle. }
  destruct (Hgen []) as [Hp Hs]; [constructor|].
  split; [|done]. by rewrite Hp, app_nil_r.
Qed.

(** X15. The verb phrase is one string in which the verb's own lemma
    stands. *)
Theorem get_verb_phrase_has_lemma `{Externals} (d : Doc) (fuel verb : nat)
    (r : list string) :
  get_verb_phrase d fuel verb = Some r ->
  exists pre post, r = [pre +:+ lemma_ d verb +:+ post].
Proof.
  destruct fuel as [|fuel]; [done|]. cbn [get_verb_phrase]. intros Hr.
  apply bind_Some in Hr as (before & _ & Hr).
  apply bind_Some in Hr as (after & _ & Hr).
  apply bind_Some in Hr as (chained & _ & Hr).
  injection Hr as <-.
  destruct (join_middle " "
              (map (lemma_ d) (List.filter (is_aux d) (lefts d verb)) ++ before)
              (lemma_ d verb)
              (after ++ map (lemma_ d) (List.filter (is_aux d) (rights d verb))
               ++ concat chained)) as (pre & post & Heq & _).
  exists pre, post. rewrite <- Heq. by rewrite <- !app_assoc.
Qed.

Lemma get_verb_phrase_has_lemma_witness :
  exists pre post,
    ["want go"] = [pre +:+ lemma_ Sample.she_wants_to_not_go 1 +:+ post].
Proof.
  apply (@get_verb_phrase_has_lemma Sample.plain Sample.she_wants_to_not_go 2 1).
  vm_compute. reflexivity.
Defined.

(** ** The object test of [extract_objects] *)

Lemma py_substr_acomp x : py_substr x "acomp" = true <-> x ∈ acomp_labels.
Proof.
  split.
  - unfold py_substr. destruct (String.index 0 x "acomp") as [n|] eqn:Hn; [|done].
    intros _. apply String.index_correct1 in Hn. rewrite <- Hn.
    generalize (String.length x). intros m. apply str_in_spec.
    destruct n as [|[|[|[|[|[|n]]]]]]; destruct m as [|[|[|[|[|[|m]]]]]];
      reflexivity.
  - unfold acomp_labels. rewrite !elem_of_cons, elem_of_nil.
    intros H. repeat (destruct H as [->|H]; [reflexivity|]). done.
Qed.

(** X16. The test [dep_ in ('acomp')] of [extract_objects] is a substring
    test: beside "acomp" it accepts every label that is a piece of that word,
    the empty label included. A token without conjuncts yields no object
    entry exactly when it is neither a noun, proper noun or pronoun nor
    carries one of those labels, and one entry otherwise. *)
Theorem extract_objects_accepts (d : Doc) (fuel token : nat)
    (entries : list Phrase) :
  conjuncts d token = [] ->
  extract_objects d fuel token = Some entries ->
  (entries = [] <-> (pos_ d token ∉ nominal) /\ (dep_ d token ∉ acomp_labels))
  /\ length entries <= 1.
Proof.
  intros Hconj Hres. unfold extract_objects in Hres. rewrite Hconj in Hres.
  apply bind_Some in Hres as (own & Hown & Hres). simpl in Hres.
  injection Hres as <-. rewrite app_nil_r.
  destruct (str_in (pos_ d token) nominal) eqn:Hpos;
    destruct (py_substr (dep_ d token) "acomp") eqn:Hdep; simpl in Hown.
  1-3: apply bind_Some in Hown as (p & _ & Hown); injection Hown as <-;
       (split; [|simpl; lia]); split; [done|]; intros [Hp Hd]; exfalso.
  - by apply str_in_spec in Hpos.
  - by apply str_in_spec in Hpos.
  - by apply py_substr_acomp in Hdep.
  - injection Hown as <-. split; [|simpl; lia]. split; [|done]. intros _.
    split; [by apply str_in_false|].
    intros Hin. apply py_substr_acomp in Hin. congruence.
Qed.

Lemma extract_objects_accepts_witness :
  ([("good", @nil string)] = []
   <-> (pos_ Sample.cake_that_was_eaten 8 ∉ nominal)
       /\ (dep_ Sample.cake_that_was_eaten 8 ∉ acomp_labels))
  /\ length [("good", @nil string)] <= 1.
Proof.
  apply (extract_objects_accepts Sample.cake_that_was_eaten 1 8).
  - reflexivity.
  - vm_compute. reflexivity.
Defined.

(** ** Fallback and delegation *)

(** X17. Once the verb's own rules (nsubj children, csubj children, passive
    agents) have found a subject, nothing is inherited and no default is
    added: the subjects are those entries followed by the entries of the
    nominal conj children. *)
Theorem own_subjects_stop_fallback (d : Doc) (fuel verb : nat)
    (direct agents extra : list (list Phrase)) :
  dep_ d verb ∉ ["acl"; "relcl"] ->
  mapM (extract_subjects d fuel) (children_dep_in d ["nsubj"] verb) = Some direct ->
  mapM (extract_subjects d fuel) (agent_pobjs d verb) = Some agents ->
  mapM (extract_subjects d fuel) (conj_nouns d verb) = Some extra ->
  concat direct <> [] \/ children_dep d "csubj" verb <> [] \/ concat agents <> [] ->
  get_verb_subjects d (S fuel) verb
  = Some (concat direct
          ++ map (fun c => (extract_clause d c, [])) (children_dep d "csubj" verb)
          ++ concat agents ++ concat extra).
Proof.
  intros Hdep Hdirect Hagents Hextra Hfound.
  cbn [get_verb_subjects]. cbv zeta beta. apply str_in_false in Hdep.
  rewrite Hdep, Hdirect, Hagents, Hextra. cbn [mbind option_bind].
  match goal with
  | |- (if nonempty ?own then _ else _) ≫= _ = _ =>
    assert (Hne : nonempty own = true)
  end.
  { match goal with |- nonempty ?own = true => destruct own eqn:Hown end; [|done].
    exfalso. apply app_eq_nil in Hown as [Hd Hown].
    apply app_eq_nil in Hown as [Hc Ha]. apply map_eq_nil in Hc.
    destruct Hfound as [?|[?|?]]; done. }
  rewrite Hne. cbn [mbind option_bind]. rewrite Hne. cbn [negb andb].
  cbn [mbind option_bind].
  match goal with
  | |- Some (if negb (nonempty ?all) && _ then _ else _) = _ =>
    assert (Hne' : nonempty all = true)
  end.
  { match type of Hne with nonempty ?own = true => destruct own end;
      [discriminate Hne | done]. }
  rewrite Hne'. cbn [negb andb]. by rewrite <- !app_assoc.
Qed.

Lemma own_subjects_stop_fallback_witness :
  get_verb_subjects Sample.alice_and_bob_left 2 3
  = Some (concat [[("Alice", []); ("Bob", [])]]
          ++ map (fun c => (extract_clause Sample.alice_and_bob_left c, []))
               (children_dep Sample.alice_and_bob_left "csubj" 3)
          ++ concat [] ++ concat []).
Proof.
  apply (own_subjects_stop_fallback Sample.alice_and_bob_left 1 3).
  - apply str_in_false. reflexivity.
  - vm_compute. reflexivity.
  - vm_compute. reflexivity.
  - vm_compute. reflexivity.
  - left. discriminate.
Defined.

(** * The table, token by token *)

Lemma mapM_split {A B} (f : A -> option B) l1 x l2 r :
  mapM f (l1 ++ x :: l2) = Some r ->
  exists r1 y r2, r = r1 ++ y :: r2 /\ mapM f l1 = Some r1
                  /\ f x = Some y /\ mapM f l2 = Some r2.
Proof.
  intros Hm. apply mapM_Some_1 in Hm.
  apply Forall2_app_inv_l in Hm as (r1 & r' & H1 & H2 & ->).
  apply Forall2_cons_inv_l in H2 as (y & r2 & Hy & H2 & ->).
  exists r1, y, r2. split; [done|].
  split; [by apply mapM_Some_2|]. split; [done | by apply mapM_Some_2].
Qed.

Lemma indices_split d verb :
  verb < length d ->
  indices d = seq 0 verb ++ verb :: seq (S verb) (length d - S verb).
Proof.
  intros Hv. unfold indices.
  replace (length d) with (verb + S (length d - S verb)) at 1 by lia.
  rewrite seq_app. simpl. done.
Qed.

Lemma count_roles_app a b l k :
  count_roles a b (l ++ k) = count_roles a b l + count_roles a b k.
Proof. unfold count_roles. by rewrite List.filter_app, length_app. Qed.

Lemma count_roles_uniform a b r1 r2 rows :
  Forall (fun r => WDW r = r1 /\ WDW2 r = r2) rows ->
  count_roles a b rows
  = if String.eqb r1 a && String.eqb r2 b then length rows else 0.
Proof.
  unfold count_roles, has_roles.
  induction 1 as [|r rows [H1 H2] _ IH]; simpl; [by destruct (_ && _)|].
  rewrite H1, H2. destruct (String.eqb r1 a && String.eqb r2 b); simpl; by rewrite IH.
Qed.

Section TokenBlock.
Context `{Externals}.

(** The roles of the four groups of rows of one extraction. *)
Lemma who_did_rows_roles svo :
  Forall (fun r => WDW r = "Who" /\ WDW2 r = "Did") (who_did_rows svo).
Proof.
  destruct svo as [[subjects verbs] objects]. unfold who_did_rows.
  apply Forall_flat_map_intro. intros s _. by apply Forall_map_intro.
Qed.

Lemma did_what_rows_roles svo :
  Forall (fun r => WDW r = "Did" /\ WDW2 r = "What") (did_what_rows svo).
Proof.
  destruct svo as [[subjects verbs] objects]. unfold did_what_rows.
  apply Forall_flat_map_intro. intros s _. by apply Forall_map_intro.
Qed.

Lemma who_who_rows_roles svo :
  Forall (fun r => WDW r = "Who" /\ WDW2 r = "Who") (who_who_rows svo).
Proof.
  destruct svo as [[subjects verbs] objects]. unfold who_who_rows.
  destruct (Nat.ltb 1 (length subjects)); [|constructor]. by apply Forall_map_intro.
Qed.

Lemma what_what_rows_roles svo :
  Forall (fun r => WDW r = "What" /\ WDW2 r = "What") (what_what_rows svo).
Proof.
  destruct svo as [[subjects verbs] objects]. unfold what_what_rows.
  destruct (Nat.ltb 1 (length objects)); [|constructor]. by apply Forall_map_intro.
Qed.

Lemma length_pair_rows (l : list Phrase) (role trace : string) :
  2 * length (if Nat.ltb 1 (length l)
              then map (fun p => mk_row p.1.1 role p.2.1 role trace 0)
                     (combinations2 l)
              else [])
  = length l * (length l - 1).
Proof.
  destruct (Nat.ltb 1 (length l)) eqn:Hl.
  - rewrite length_map. apply length_combinations2.
  - rewrite <- length_combinations2, (combinations2_short l Hl). done.
Qed.

(** The rows of one extraction, counted by role pair. *)
Lemma svo_rows_by_role subjects verbs objects :
  count_roles "Who" "Did" (svo_rows (subjects, verbs, objects))
  = length subjects * length verbs
  /\ count_roles "Did" "What" (svo_rows (subjects, verbs, objects))
     = length verbs * length objects
  /\ 2 * count_roles "Who" "Who" (svo_rows (subjects, verbs, objects))
     = length subjects * (length subjects - 1)
  /\ 2 * count_roles "What" "What" (svo_rows (subjects, verbs, objects))
     = length objects * (length objects - 1)
  /\ length (svo_rows (subjects, verbs, objects))
     = count_roles "Who" "Did" (svo_rows (subjects, verbs, objects))
       + count_roles "Did" "What" (svo_rows (subjects, verbs, objects))
       + count_roles "Who" "Who" (svo_rows (subjects, verbs, objects))
       + count_roles "What" "What" (svo_rows (subjects, verbs, objects)).
Proof.
  set (svo := (subjects, verbs, objects)).
  assert (Hcount : forall a b,
    count_roles a b (svo_rows svo)
    = (if String.eqb "Who" a && String.eqb "Did" b
       then length (who_did_rows svo) else 0)
      + (if String.eqb "Did" a && String.eqb "What" b
         then length (did_what_rows svo) else 0)
      + (if String.eqb "Who" a && String.eqb "Who" b
         then length (who_who_rows svo) else 0)
      + (if String.eqb "What" a && String.eqb "What" b
         then length (what_what_rows svo) else 0)).
  { intros a b. unfold svo_rows. rewrite !count_roles_app.
    rewrite (count_roles_uniform a b _ _ _ (who_did_rows_roles svo)).
    rewrite (count_roles_uniform a b _ _ _ (did_what_rows_roles svo)).
    rewrite (count_roles_uniform a b _ _ _ (who_who_rows_roles svo)).
    rewrite (count_roles_uniform a b _ _ _ (what_what_rows_roles svo)). lia. }
  assert (Hflat : forall {A B C} (f : A -> B -> C) (l : list A) (k : list B),
    length (flat_map (fun a => map (f a) k) l) = length l * length k).
  { intros A B C f l k. induction l as [|a l IH]; [done|].
    simpl. rewrite length_app, length_map, IH. done. }
  assert (Hwd : length (who_did_rows svo) = length subjects * length verbs)
    by apply Hflat.
  assert (Hdw : length (did_what_rows svo) = length verbs * length objects)
    by apply Hflat.
  assert (Hww : 2 * length (who_who_rows svo)
                = length subjects * (length subjects - 1))
    by exact (length_pair_rows subjects "Who" (py_str svo)).
  assert (Hoo : 2 * length (what_what_rows svo)
                = length objects * (length objects - 1))
    by exact (length_pair_rows objects "What" (py_str svo)).
  rewrite !Hcount. cbn [String.eqb Ascii.eqb Bool.eqb andb].
  unfold svo_rows. rewrite !length_app. rewrite Hwd, Hdw. lia.
Qed.

(** Where the rows of one qualifying token stand in a returned table: after
    the syntactic rows of the qualifying tokens before it, before those of
    the qualifying tokens after it and before the synonym pass. *)
Lemma token_block fuel doc df verb :
  verb < length doc -> qualifies doc verb = true ->
  extract_svos fuel doc = Some df ->
  exists subjects verb_phrase objects earlier later,
    get_verb_subjects doc fuel verb = Some subjects
    /\ get_verb_phrase doc fuel verb = Some [verb_phrase]
    /\ get_verb_objects doc fuel verb = Some objects
    /\ mapM (svo_of doc fuel) (List.filter (qualifies doc) (seq 0 verb))
       = Some earlier
    /\ mapM (svo_of doc fuel)
         (List.filter (qualifies doc) (seq (S verb) (length doc - S verb)))
       = Some later
    /\ svo_triples doc fuel
       = Some (earlier ++ (subjects, [verb_phrase], objects) :: later)
    /\ df_rows df
       = syntactic_rows earlier
         ++ svo_rows (subjects, [verb_phrase], objects)
         ++ syntactic_rows later
         ++ semantic_rows (earlier ++ (subjects, [verb_phrase], objects) :: later).
Proof.
  intros Hv Hq Hdf. unfold extract_svos in Hdf.
  apply bind_Some in Hdf as (svos & Hsvos & Hdf). injection Hdf as <-.
  pose proof Hsvos as Hsplit. unfold svo_triples in Hsplit.
  rewrite (indices_split doc verb Hv), List.filter_app in Hsplit.
  cbn [List.filter] in Hsplit. rewrite Hq in Hsplit.
  apply mapM_split in Hsplit as (earlier & svo & later & -> & He & Hsvo & Hl).
  destruct (svo_of_parts _ _ _ _ Hsvo) as (Hs & Hvp & Ho).
  destruct (get_verb_phrase_singleton _ _ _ _ Hvp) as [vp Hone].
  destruct svo as [[subjects verbs] objects]. simpl in *. subst verbs.
  exists subjects, vp, objects, earlier, later.
  do 6 (split; [done|]).
  unfold syntactic_rows. rewrite flat_map_app. simpl.
  by rewrite <- !app_assoc.
Qed.
End TokenBlock.

(** C3. A qualifying token whose subject resolution yields two entries and
    whose object resolution yields three contributes to the returned table,
    in the place of the token among the syntactic rows and through its
    one-element verb phrase sequence, these nine rows: two Who-Did rows,
    three Did-What rows, one Who-Who row and three What-What rows. *)
Theorem cross_product_counts `{Externals} (doc : Doc) (fuel verb : nat)
    (df : DataFrame) (s1 s2 o1 o2 o3 : Phrase) :
  verb < length doc ->
  qualifies doc verb = true ->
  extract_svos fuel doc = Some df ->
  get_verb_subjects doc fuel verb = Some [s1; s2] ->
  get_verb_objects doc fuel verb = Some [o1; o2; o3] ->
  exists verb_phrase earlier later block,
    get_verb_phrase doc fuel verb = Some [verb_phrase]
    /\ mapM (svo_of doc fuel) (List.filter (qualifies doc) (seq 0 verb))
       = Some earlier
    /\ mapM (svo_of doc fuel)
         (List.filter (qualifies doc) (seq (S verb) (length doc - S verb)))
       = Some later
    /\ block
       = (let trace := py_str ([s1; s2], [verb_phrase], [o1; o2; o3]) in
          [ mk_row s1.1 "Who" verb_phrase "Did" trace 0;
            mk_row s2.1 "Who" verb_phrase "Did" trace 0;
            mk_row verb_phrase "Did" o1.1 "What" trace 0;
            mk_row verb_phrase "Did" o2.1 "What" trace 0;
            mk_row verb_phrase "Did" o3.1 "What" trace 0;
            mk_row s1.1 "Who" s2.1 "Who" trace 0;
            mk_row o1.1 "What" o2.1 "What" trace 0;
            mk_row o1.1 "What" o3.1 "What" trace 0;
            mk_row o2.1 "What" o3.1 "What" trace 0 ])
    /\ df_rows df
       = syntactic_rows earlier ++ block ++ syntactic_rows later
         ++ semantic_rows (earlier ++ ([s1; s2], [verb_phrase], [o1; o2; o3]) :: later)
    /\ count_roles "Who" "Did" block = 2
    /\ count_roles "Did" "What" block = 3
    /\ count_roles "Who" "Who" block = 1
    /\ count_roles "What" "What" block = 3
    /\ length block = 9.
Proof.
  intros Hv Hq Hdf Hs Ho.
  destruct (token_block fuel doc df verb Hv Hq Hdf)
    as (subjects & vp & objects & earlier & later
        & Hs' & Hvp & Ho' & He & Hl & _ & Hrows).
  rewrite Hs in Hs'. injection Hs' as <-. rewrite Ho in Ho'. injection Ho' as <-.
  exists vp, earlier, later. eexists.
  do 3 (split; [done|]). split; [reflexivity|].
  split; [exact Hrows|]. repeat split; reflexivity.
Qed.

Lemma cross_product_counts_witness :
  exists df verb_phrase earlier later block,
    @extract_svos Sample.plain 4 Sample.alice_and_bob_eat = Some df
    /\ @get_verb_phrase Sample.plain Sample.alice_and_bob_eat 4 3 = Some [verb_phrase]
    /\ df_rows df
       = @syntactic_rows Sample.plain earlier ++ block
         ++ @syntactic_rows Sample.plain later
         ++ @semantic_rows Sample.plain
              (earlier ++ ([("Alice", []); ("Bob", [])], [verb_phrase],
                           [("apple", []); ("pear", []); ("plum", [])]) :: later)
    /\ count_roles "Who" "Did" block = 2
    /\ count_roles "Did" "What" block = 3
    /\ count_roles "Who" "Who" block = 1
    /\ count_roles "What" "What" block = 3.
Proof.
  eexists.
  destruct (@cross_product_counts Sample.plain Sample.alice_and_bob_eat 4 3 _
              ("Alice", []) ("Bob", []) ("apple", []) ("pear", []) ("plum", [])
              ltac:(simpl; lia) ltac:(reflexivity) ltac:(vm_compute; reflexivity)
              ltac:(vm_compute; reflexivity) ltac:(vm_compute; reflexivity))
    as (vp & earlier & later & block & Hvp & _ & _ & _ & Hrows & H1 & H2 & H3 & H4 & _).
  exists vp, earlier, later, block.
  split; [vm_compute; reflexivity|]. done.
Defined.

(** X2. In a returned table the rows of a qualifying token with s subjects
    and o objects stand together in the token's place: s Who-Did rows, o
    Did-What rows (its verb phrase sequence has one element), s(s-1)/2
    Who-Who rows and o(o-1)/2 What-What rows, and no other row. *)
Theorem svo_rows_count `{Externals} (doc : Doc) (fuel verb : nat) (df : DataFrame) :
  verb < length doc ->
  qualifies doc verb = true ->
  extract_svos fuel doc = Some df ->
  exists subjects verb_phrase objects earlier later block,
    get_verb_subjects doc fuel verb = Some subjects
    /\ get_verb_phrase doc fuel verb = Some [verb_phrase]
    /\ get_verb_objects doc fuel verb = Some objects
    /\ mapM (svo_of doc fuel) (List.filter (qualifies doc) (seq 0 verb))
       = Some earlier
    /\ df_rows df
       = syntactic_rows earlier ++ block ++ syntactic_rows later
         ++ semantic_rows (earlier ++ (subjects, [verb_phrase], objects) :: later)
    /\ Forall (fun r => Hypergraph r = py_str (subjects, [verb_phrase], objects)
                        /\ Semantic_Syntactic r = 0) block
    /\ count_roles "Who" "Did" block = length subjects
    /\ count_roles "Did" "What" block = length objects
    /\ 2 * count_roles "Who" "Who" block = length subjects * (length subjects - 1)
    /\ 2 * count_roles "What" "What" block = length objects * (length objects - 1)
    /\ length block
       = count_roles "Who" "Did" block + count_roles "Did" "What" block
         + count_roles "Who" "Who" block + count_roles "What" "What" block.
Proof.
  intros Hv Hq Hdf.
  destruct (token_block fuel doc df verb Hv Hq Hdf)
    as (subjects & vp & objects & earlier & later
        & Hs & Hvp & Ho & He & Hl & _ & Hrows).
  exists subjects, vp, objects, earlier, later, (svo_rows (subjects, [vp], objects)).
  do 5 (split; [done|]).
  destruct (svo_rows_by_role subjects [vp] objects) as (H1 & H2 & H3 & H4 & H5).
  simpl length in H1, H2.
  split.
  - apply Forall_forall. intros r Hr.
    apply elem_of_svo_rows in Hr
      as [(p & v & _ & _ & ->)|[(v & p & _ & _ & ->)|[(pq & _ & ->)|(pq & _ & ->)]]];
      done.
  - split; [lia|]. split; [lia|]. done.
Qed.

Lemma svo_rows_count_witness :
  exists df subjects verb_phrase objects earlier later block,
    @extract_svos Sample.plain 4 Sample.alice_and_bob_left = Some df
    /\ get_verb_subjects Sample.alice_and_bob_left 4 3 = Some subjects
    /\ df_rows df
       = @syntactic_rows Sample.plain earlier ++ block
         ++ @syntactic_rows Sample.plain later
         ++ @semantic_rows Sample.plain
              (earlier ++ (subjects, [verb_phrase], objects) :: later)
    /\ count_roles "Who" "Did" block = length subjects.
Proof.
  eexists.
  destruct (@svo_rows_count Sample.plain Sample.alice_and_bob_left 4 3 _
              ltac:(simpl; lia) ltac:(reflexivity) ltac:(vm_compute; reflexivity))
    as (subjects & vp & objects & earlier & later & block
        & Hs & _ & _ & _ & Hrows & _ & H1 & _).
  exists subjects, vp, objects, earlier, later, block.
  split; [vm_compute; reflexivity|]. done.
Defined.

(** ** The synonym pass over what the resolvers returned *)

Lemma mapM_elem_l {A B} (f : A -> option B) l r x :
  mapM f l = Some r -> x ∈ l -> exists y, y ∈ r /\ f x = Some y.
Proof.
  intros Hm Hx. apply mapM_Some_1 in Hm.
  induction Hm as [|x' y l r Hy Hm IH]; [by apply elem_of_nil in Hx|].
  apply elem_of_cons in Hx as [->|Hx].
  - exists y. split; [left | done].
  - destruct (IH Hx) as (y' & Hy' & Hf). exists y'. split; [by right | done].
Qed.

Lemma resolved_triple `{Externals} doc fuel svos verb :
  svo_triples doc fuel = Some svos ->
  verb < length doc -> qualifies doc verb = true ->
  exists svo, svo ∈ svos /\ svo_of doc fuel verb = Some svo.
Proof.
  intros Hsvos Hv Hq. unfold svo_triples in Hsvos.
  apply (mapM_elem_l _ _ _ verb Hsvos).
  apply elem_of_bfilter. split; [done | by apply elem_of_indices].
Qed.

(** What a resolver returned for a qualifying token is among the strings the
    synonym pass collects. *)
Lemma resolved_subject_collected `{Externals} doc fuel svos verb subjects a :
  svo_triples doc fuel = Some svos ->
  verb < length doc -> qualifies doc verb = true ->
  get_verb_subjects doc fuel verb = Some subjects ->
  a ∈ map fst subjects -> a ∈ all_subjects svos.
Proof.
  intros Hsvos Hv Hq Hs Ha.
  destruct (resolved_triple doc fuel svos verb Hsvos Hv Hq) as (svo & Hsvo & Hof).
  destruct (svo_of_parts _ _ _ _ Hof) as (Hs' & _ & _).
  rewrite Hs in Hs'. injection Hs' as ->.
  unfold all_subjects. apply elem_of_flat_map_iff. by exists svo.
Qed.

Lemma resolved_object_collected `{Externals} doc fuel svos verb objects a :
  svo_triples doc fuel = Some svos ->
  verb < length doc -> qualifies doc verb = true ->
  get_verb_objects doc fuel verb = Some objects ->
  a ∈ map fst objects -> a ∈ all_objects svos.
Proof.
  intros Hsvos Hv Hq Ho Ha.
  destruct (resolved_triple doc fuel svos verb Hsvos Hv Hq) as (svo & Hsvo & Hof).
  destruct (svo_of_parts _ _ _ _ Hof) as (_ & _ & Ho').
  rewrite Ho in Ho'. injection Ho' as ->.
  unfold all_objects. apply elem_of_flat_map_iff. by exists svo.
Qed.

(** C4. Two distinct strings that the Subject Resolver returned for
    qualifying tokens of the document (the same token or two) and that
    [are_synonyms] accepts are linked by exactly one Who-Who row of semantic
    provenance with trace "N/A" in the returned table, however often either
    was returned; likewise two strings returned by the Object Resolver and
    What-What rows; and the table is the syntactic rows followed by the
    semantic rows, each of which has trace "N/A". *)
Theorem synonym_rows_once `{Externals} (fuel : nat) (doc : Doc) (df : DataFrame) :
  extract_svos fuel doc = Some df ->
  (forall verb1 verb2 subjects1 subjects2 a b,
     verb1 < length doc -> qualifies doc verb1 = true ->
     get_verb_subjects doc fuel verb1 = Some subjects1 -> a ∈ map fst subjects1 ->
     verb2 < length doc -> qualifies doc verb2 = true ->
     get_verb_subjects doc fuel verb2 = Some subjects2 -> b ∈ map fst subjects2 ->
     a <> b -> are_synonyms a b = true ->
     length (List.filter (links "Who" a b) (df_rows df)) = 1)
  /\ (forall verb1 verb2 objects1 objects2 a b,
        verb1 < length doc -> qualifies doc verb1 = true ->
        get_verb_objects doc fuel verb1 = Some objects1 -> a ∈ map fst objects1 ->
        verb2 < length doc -> qualifies doc verb2 = true ->
        get_verb_objects doc fuel verb2 = Some objects2 -> b ∈ map fst objects2 ->
        a <> b -> are_synonyms a b = true ->
        length (List.filter (links "What" a b) (df_rows df)) = 1)
  /\ exists syntactic semantic,
       df_rows df = syntactic ++ semantic
       /\ Forall (fun r => Semantic_Syntactic r = 0) syntactic
       /\ Forall (fun r => Semantic_Syntactic r = 1 /\ Hypergraph r = "N/A") semantic.
Proof.
  intros Hdf. unfold extract_svos in Hdf.
  apply bind_Some in Hdf as (svos & Hsvos & Hdf). injection Hdf as <-. simpl.
  split; [|split].
  - intros v1 v2 s1 s2 a b Hv1 Hq1 Hs1 Ha Hv2 Hq2 Hs2 Hb Hab Hsyn.
    pose proof (resolved_subject_collected _ _ _ _ _ _ Hsvos Hv1 Hq1 Hs1 Ha) as Ha'.
    pose proof (resolved_subject_collected _ _ _ _ _ _ Hsvos Hv2 Hq2 Hs2 Hb) as Hb'.
    rewrite List.filter_app, length_app, links_syntactic. simpl.
    unfold semantic_rows.
    rewrite (proj1 (links_semantic_rows _ _ a b Hsyn)).
    apply pairs_once; [apply list_of_set_NoDup | done | ..];
      by apply list_of_set_elem.
  - intros v1 v2 o1 o2 a b Hv1 Hq1 Ho1 Ha Hv2 Hq2 Ho2 Hb Hab Hsyn.
    pose proof (resolved_object_collected _ _ _ _ _ _ Hsvos Hv1 Hq1 Ho1 Ha) as Ha'.
    pose proof (resolved_object_collected _ _ _ _ _ _ Hsvos Hv2 Hq2 Ho2 Hb) as Hb'.
    rewrite List.filter_app, length_app, links_syntactic. simpl.
    unfold semantic_rows.
    rewrite (proj2 (links_semantic_rows _ _ a b Hsyn)).
    apply pairs_once; [apply list_of_set_NoDup | done | ..];
      by apply list_of_set_elem.
  - exists (syntactic_rows svos), (semantic_rows svos).
    split; [done|]. split; [apply syntactic_rows_syntactic|].
    unfold semantic_rows. apply Forall_app_2;
      (eapply Forall_impl; [apply synonym_rows_role|]);
      intros r (_ & _ & Htrace & Hkind); done.
Qed.

Lemma synonym_rows_once_witness :
  (exists df,
     @extract_svos Sample.plain 4 Sample.doctor_and_physician = Some df
     /\ length (List.filter (links "Who" "doctor" "physician") (df_rows df)) = 1)
  /\ (exists df,
        @extract_svos Sample.plain 4 Sample.saw_doctor_called_physician = Some df
        /\ length (List.filter (links "What" "doctor" "physician") (df_rows df)) = 1).
Proof.
  split.
  - eexists. split; [vm_compute; reflexivity|].
    refine (proj1 (@synonym_rows_once Sample.plain 4 Sample.doctor_and_physician
                     _ _) 2 6 [("doctor", [])] [("physician", [])]
              "doctor" "physician" _ _ _ _ _ _ _ _ _ _);
      try (vm_compute; reflexivity); try (simpl; lia); try (vm_compute; left);
      discriminate.
  - eexists. split; [vm_compute; reflexivity|].
    refine (proj1 (proj2 (@synonym_rows_once Sample.plain 4
                            Sample.saw_doctor_called_physician _ _))
              1 5 [("doctor", [])] [("physician", [])]
              "doctor" "physician" _ _ _ _ _ _ _ _ _ _);
      try (vm_compute; reflexivity); try (simpl; lia); try (vm_compute; left);
      discriminate.
Defined.

(** ** No qualifying token, as the filter is specified *)

(** C9. In "home, walking and talking nonsense" no token qualifies as the
    filter is specified (the only verb outside the seven labels is a [conj]
    whose head is labelled [npadvmod]), yet the returned table is not empty:
    it carries the six columns and one row, whatever the stop-lists. The
    filter of [extract_svos] misses [npadvmod] in its head-label list. *)
Theorem no_action_as_specified_not_empty :
  forall E : Externals,
    forallb (fun i => negb (qualifies_as_specified Sample.conj_of_npadvmod i))
      (indices Sample.conj_of_npadvmod) = true
    /\ extract_svos 3 Sample.conj_of_npadvmod
       = Some {| df_columns := ["Node 1"; "WDW"; "Node 2"; "WDW2"; "Hypergraph";
                                "Semantic-Syntactic"];
                 df_rows := [mk_row "talk" "Did" "nonsense" "What"
                               (py_str ([], ["talk"], [("nonsense", [])])) 0] |}.
Proof.
  intros E. split; [reflexivity|].
  assert (Hsvo : svo_triples Sample.conj_of_npadvmod 3
                 = Some [([], ["talk"], [("nonsense", [])])]) by (vm_compute; done).
  unfold extract_svos. rewrite Hsvo. simpl.
  unfold semantic_rows, all_subjects, all_objects. simpl.
  rewrite list_of_set_nil.
  destruct (list_of_set_singleton "nonsense") as [y Hy]. rewrite Hy. done.
Qed.

(** ** Passive clauses: what the Subject Resolver returns *)






(** ** How deep the modifier loops reach *)

Lemma children_head d i c : c ∈ children d i -> head d c = i /\ c < length d.
Proof.
  intros Hc. apply elem_of_children in Hc. destruct Hc as (Hlt & Hhead & _).
  done.
Qed.

(** X13. A token collected as a modifier is a token of the document and is
    a modifier child of the token, or a child or a grandchild of a modifier
    child that carries one of compound, nmod, advmod, amod, npadvmod (so at
    most three head links below the token), or an adjective conj conjunct of
    a modifier child; and every modifier child is collected. *)
Theorem collect_modifiers_depth (d : Doc) (token : nat) :
  (forall m, m ∈ collect_modifiers d token ->
     (m < length d
      /\ ((head d m = token /\ is_modifier d token m = true)
          \/ (dep_ d m ∈ deep_modifier_deps
              /\ is_modifier d token (head d m) = true
              /\ head d (head d m) = token)
          \/ (dep_ d m ∈ deep_modifier_deps
              /\ is_modifier d token (head d (head d m)) = true
              /\ head d (head d (head d m)) = token)))
     \/ (pos_ d m = "ADJ" /\ dep_ d m = "conj"
         /\ exists child, head d child = token /\ is_modifier d token child = true
                          /\ m ∈ conjuncts d child))
  /\ (forall child, child ∈ children d token -> is_modifier d token child = true ->
        child ∈ collect_modifiers d token).
Proof.
  split.
  - intros m Hm. apply collect_modifiers_spec in Hm as (child & Hchild & Hmod & Hm).
    apply children_head in Hchild as [Hhead Hlt].
    destruct Hm as [->|[(Hconj & Hpos & Hdep)|[(Hc & Hdep)|(g & Hg & Hc & Hdep)]]].
    + left. split; [done|]. by left.
    + right. split; [done|]. split; [done|]. by exists child.
    + apply children_head in Hc as [Hh Hl]. left. split; [done|].
      right; left. rewrite Hh. done.
    + apply children_head in Hg as [Hhg _]. apply children_head in Hc as [Hh Hl].
      left. split; [done|]. right; right. rewrite Hh, Hhg. done.
  - intros child Hchild Hmod. apply collect_modifiers_spec.
    exists child. split; [done|]. split; [done|]. by left.
Qed.

Lemma collect_modifiers_depth_witness :
  1 ∈ collect_modifiers Sample.these_bigger_dogs 2
  /\ ((1 < length Sample.these_bigger_dogs
       /\ ((head Sample.these_bigger_dogs 1 = 2
            /\ is_modifier Sample.these_bigger_dogs 2 1 = true)
           \/ (dep_ Sample.these_bigger_dogs 1 ∈ deep_modifier_deps
               /\ is_modifier Sample.these_bigger_dogs 2
                    (head Sample.these_bigger_dogs 1) = true
               /\ head Sample.these_bigger_dogs (head Sample.these_bigger_dogs 1) = 2)
           \/ (dep_ Sample.these_bigger_dogs 1 ∈ deep_modifier_deps
               /\ is_modifier Sample.these_bigger_dogs 2
                    (head Sample.these_bigger_dogs
                       (head Sample.these_bigger_dogs 1)) = true
               /\ head Sample.these_bigger_dogs
                    (head Sample.these_bigger_dogs
                       (head Sample.these_bigger_dogs 1)) = 2)))
      \/ (pos_ Sample.these_bigger_dogs 1 = "ADJ"
          /\ dep_ Sample.these_bigger_dogs 1 = "conj"
          /\ exists child,
               head Sample.these_bigger_dogs child = 2
               /\ is_modifier Sample.these_bigger_dogs 2 child = true
               /\ 1 ∈ conjuncts Sample.these_bigger_dogs child)).
Proof.
  destruct (collect_modifiers_depth Sample.these_bigger_dogs 2) as [Hdepth Hin].
  assert (H1 : 1 ∈ collect_modifiers Sample.these_bigger_dogs 2).
  { apply (Hin 1); [vm_compute; right; left | reflexivity]. }
  split; [exact H1 | exact (Hdepth 1 H1)].
Defined.

(** ** Open complements: what the governing verb receives *)

(** X18. The objects resolved for an open-complement (xcomp) child are
    objects of the governing verb, and they include what the child's own
    dobj, attr, oprd and acomp children resolve to: a direct object of the
    complement is an object of the governing verb. *)
Theorem xcomp_objects_delegated (d : Doc) (fuel verb xcomp_child : nat)
    (objects : list Phrase) :
  xcomp_child ∈ children_dep d "xcomp" verb ->
  get_verb_objects d (S (S fuel)) verb = Some objects ->
  exists xcomp_objects,
    get_verb_objects d (S fuel) xcomp_child = Some xcomp_objects
    /\ xcomp_objects ⊆ objects
    /\ forall c, c ∈ children_dep_in d ["dobj"; "attr"; "oprd"; "acomp"] xcomp_child ->
         exists entries, extract_objects d fuel c = Some entries
                         /\ entries ⊆ xcomp_objects /\ entries ⊆ objects.
Proof.
  intros Hxc Hres.
  assert (Hsub_xo : exists xo, get_verb_objects d (S fuel) xcomp_child = Some xo
                               /\ xo ⊆ objects).
  { cbn [get_verb_objects] in Hres.
    apply bind_Some in Hres as (direct & _ & Hres).
    apply bind_Some in Hres as (indirect & _ & Hres).
    apply bind_Some in Hres as (prepositional & _ & Hres).
    apply bind_Some in Hres as (passive & _ & Hres).
    apply bind_Some in Hres as (adverbial & _ & Hres).
    apply bind_Some in Hres as (clausal & _ & Hres).
    apply bind_Some in Hres as (open & Hopen & Hres).
    destruct (expand_elem _ _ _ _ Hopen Hxc) as (found & Hfound & Hsub).
    apply bind_Some in Hfound as (xo & Hxo & Hfound).
    exists xo. split; [done|].
    eapply kept_if_nonempty with (s := direct ++ indirect ++ prepositional ++ passive
                                        ++ adverbial ++ clausal ++ open).
    - do 6 apply subseteq_app_r'.
      destruct xo as [|p xo]; [intros x Hx; by apply elem_of_nil in Hx|].
      simpl in Hfound. injection Hfound as <-. exact Hsub.
    - intros Hn. rewrite Hn in Hres. by injection Hres. }
  destruct Hsub_xo as (xo & Hxo & Hsub). exists xo. split; [done|]. split; [done|].
  intros c Hc. pose proof Hxo as Hinner. cbn [get_verb_objects] in Hinner.
  apply bind_Some in Hinner as (direct & Hdirect & Hinner).
  apply bind_Some in Hinner as (indirect & _ & Hinner).
  apply bind_Some in Hinner as (prepositional & _ & Hinner).
  apply bind_Some in Hinner as (passive & _ & Hinner).
  apply bind_Some in Hinner as (adverbial & _ & Hinner).
  apply bind_Some in Hinner as (clausal & _ & Hinner).
  apply bind_Some in Hinner as (open & _ & Hinner).
  destruct (expand_elem _ _ _ _ Hdirect Hc) as (entries & Hentries & Hin).
  exists entries. split; [done|].
  assert (Hxo' : entries ⊆ xo).
  { eapply kept_if_nonempty with (s := direct ++ indirect ++ prepositional ++ passive
                                        ++ adverbial ++ clausal ++ open).
    - by apply subseteq_app_l'.
    - intros Hn. rewrite Hn in Hinner. by injection Hinner. }
  split; [done|]. intros x Hx. by apply Hsub, Hxo'.
Qed.

Lemma xcomp_objects_delegated_witness :
  exists xcomp_objects,
    get_verb_objects Sample.she_wants_to_eat_apples 2 3 = Some xcomp_objects
    /\ xcomp_objects ⊆ [("apple", [])]
    /\ forall c, c ∈ children_dep_in Sample.she_wants_to_eat_apples
                       ["dobj"; "attr"; "oprd"; "acomp"] 3 ->
         exists entries,
           extract_objects Sample.she_wants_to_eat_apples 1 c = Some entries
           /\ entries ⊆ xcomp_objects /\ entries ⊆ [("apple", [])].
Proof.
  apply (xcomp_objects_delegated Sample.she_wants_to_eat_apples 1 1 3 [("apple", [])]).
  - vm_compute. left.
  - vm_compute. reflexivity.
Defined.

(** * Words of the assembled phrases *)











Section PhraseWords.
Variable d : Doc.
Variable lemmatize : bool.







End PhraseWords.

(** ** What the resolvers hand to the assembler *)
















